(** * Nevo demo: a model of the voice client and of the dialog step
      protocol it speaks.

    The client is modelled from the TypeScript sources of
    [audi-nevo-frontend-main]:

    - [helpers/audio.ts]                   in module [Audio],
    - [api/audioStream.ts]                 in module [AudioStream],
    - [components/ai/VoiceInteraction.tsx] in modules [Voice] and [Channel],
    - [Login.tsx] and [App.tsx]            in module [Channel],
    - [components/showroom/CarShowroom.tsx] and
      [AIShowroom.tsx]                     in module [Showroom],
    - [components/ai/BouncingDots.tsx]     in module [Dots].

    The server side of a dialog step (Turn Gate, Step Runner, Streaming
    Channel) is not among the sources; module [Server] models it from
    the specification.

    JavaScript numbers are modelled by exact rationals plus the
    non-finite values ([JS.number]); every number the sources compute on
    the paths modelled here is either an integer below 2^53 or a 16-bit
    integer divided by 2^15, both exact in IEEE arithmetic, or a time
    value, where the rationals stand for the ideal clock. *)

From Stdlib Require Import ZArith QArith Qround Lia Lqa String Ascii Strings.Byte.
From stdpp Require Import base list strings pretty gmap.

Local Open Scope Z_scope.
Set Warnings "-register-all".

(* ===================================================================== *)
(** ** JavaScript values                                                   *)
(* ===================================================================== *)

Module JS.

(** A JS number: a finite value, NaN, or a signed infinity. [Num q]
    stands for the double nearest to the rational [q], which is [q]
    itself wherever [q] is representable. *)
Inductive number : Type :=
| Num (q : Q)
| NaN
| Infinity (negative : bool).

(** [x / y] on integer-valued operands, as IEEE division decides the
    special cases: 0/0 is NaN, x/0 is an infinity of the sign of x. *)
Definition div (x y : Z) : number :=
  if y =? 0 then
    if x =? 0 then NaN else Infinity (x <? 0)
  else Num (inject_Z x / inject_Z y)%Q.

(** A [Uint8Array]: its elements are bytes. *)
Abbreviation Uint8Array := (list byte).

(** The numeric value of an element. *)
Definition u8 (b : byte) : Z := Z.of_N (Byte.to_N b).

(** [arr[i]] in a bitwise context: an out-of-range read is [undefined],
    which [|] and [<<] turn into 0. *)
Definition int32_at (arr : Uint8Array) (i : nat) : Z :=
  match arr !! i with
  | Some b => u8 b
  | None => 0
  end.

(** [for (let i = 0; i < n; i++) body]: [for_loop n 0 body s] runs the
    body at i = 0, 1, ..., n-1. *)
Fixpoint for_loop {S : Type} (n i : nat) (body : nat -> S -> S) (s : S) : S :=
  match n with
  | O => s
  | Datatypes.S n' => for_loop n' (Datatypes.S i) body (body i s)
  end.


(** *** JSON values and [JSON.parse]

    Strings are byte strings: the UTF-8 text of the frame.  A [\uXXXX]
    escape below 0x80 yields that character; a larger code unit yields
    its two- or three-byte encoding, so it never equals an ASCII
    character.  Numbers keep their lexeme: no code modelled here
    computes with a parsed number. *)
Inductive json : Type :=
| JNull
| JBool (b : bool)
| JNumber (lexeme : string)
| JString (s : string)
| JArray (items : list json)
| JObject (members : list (string * json)).

Definition quote : ascii := "034"%char.
Definition backslash : ascii := "\"%char.

Definition is_ws (c : ascii) : bool :=
  (Ascii.eqb c " " || Ascii.eqb c "009" || Ascii.eqb c "010"
   || Ascii.eqb c "013")%char.

Fixpoint skip_ws (s : string) : string :=
  match s with
  | String c rest => if is_ws c then skip_ws rest else s
  | EmptyString => s
  end.

Definition is_digit (c : ascii) : bool :=
  let n := nat_of_ascii c in (48 <=? n)%nat && (n <=? 57)%nat.

Definition hex_value (c : ascii) : option N :=
  let n := N_of_ascii c in
  if ((48 <=? n) && (n <=? 57))%N then Some (n - 48)%N
  else if ((65 <=? n) && (n <=? 70))%N then Some (n - 55)%N
  else if ((97 <=? n) && (n <=? 102))%N then Some (n - 87)%N
  else None.

(** The bytes that stand for one UTF-16 code unit. *)
Definition code_unit_bytes (u : N) : string :=
  if (u <? 128)%N then String (ascii_of_N u) EmptyString
  else if (u <? 2048)%N then
    String (ascii_of_N (192 + u / 64))
      (String (ascii_of_N (128 + u mod 64)) EmptyString)
  else
    String (ascii_of_N (224 + u / 4096))
      (String (ascii_of_N (128 + (u / 64) mod 64))
         (String (ascii_of_N (128 + u mod 64)) EmptyString)).

(** The characters of a string literal after its opening quote, up to
    and including the closing quote. *)
Fixpoint parse_chars (s : string) : option (string * string) :=
  match s with
  | EmptyString => None
  | String c rest =>
      if Ascii.eqb c quote then Some (EmptyString, rest)
      else if Ascii.eqb c backslash then
        match rest with
        | String e rest' =>
            let simple (d : ascii) :=
              '(str, r) ← parse_chars rest'; Some (String d str, r) in
            if Ascii.eqb e quote then simple quote
            else if Ascii.eqb e backslash then simple backslash
            else if Ascii.eqb e "/" then simple "/"%char
            else if Ascii.eqb e "b" then simple "008"%char
            else if Ascii.eqb e "f" then simple "012"%char
            else if Ascii.eqb e "n" then simple "010"%char
            else if Ascii.eqb e "r" then simple "013"%char
            else if Ascii.eqb e "t" then simple "009"%char
            else if Ascii.eqb e "u" then
              match rest' with
              | String h1 (String h2 (String h3 (String h4 rest''))) =>
                  a ← hex_value h1; b ← hex_value h2;
                  c ← hex_value h3; d ← hex_value h4;
                  '(str, r) ← parse_chars rest'';
                  Some (code_unit_bytes (4096 * a + 256 * b + 16 * c + d)
                          +:+ str, r)
              | _ => None
              end
            else None
        | EmptyString => None
        end
      else if (nat_of_ascii c <? 32)%nat then None
      else '(str, r) ← parse_chars rest; Some (String c str, r)
  end.

Fixpoint take_digits (s : string) : string * string :=
  match s with
  | String c rest =>
      if is_digit c then
        let '(ds, r) := take_digits rest in (String c ds, r)
      else (EmptyString, s)
  | EmptyString => (EmptyString, s)
  end.

(** A number lexeme: an optional minus sign; then 0, or a non-zero digit
    and further digits; then optionally a point and one or more digits;
    then optionally e or E, an optional sign and one or more digits. *)
Definition parse_number (s : string) : option (string * string) :=
  let '(sign, s1) :=
    match s with
    | String "-" r => ("-", r)
    | _ => (EmptyString, s)
    end in
  '(int, s2) ←
    match s1 with
    | String "0" r => Some ("0", r)
    | String c _ =>
        if is_digit c then Some (take_digits s1) else None
    | EmptyString => None
    end;
  '(frac, s3) ←
    match s2 with
    | String "." r =>
        let '(ds, r') := take_digits r in
        if String.eqb ds EmptyString then None else Some ("." +:+ ds, r')
    | _ => Some (EmptyString, s2)
    end;
  '(exp, s4) ←
    match s3 with
    | String c r =>
        if (Ascii.eqb c "e" || Ascii.eqb c "E")%char then
          let '(sg, r1) :=
            match r with
            | String "+" r' => ("+", r')
            | String "-" r' => ("-", r')
            | _ => (EmptyString, r)
            end in
          let '(ds, r2) := take_digits r1 in
          if String.eqb ds EmptyString then None
          else Some (String c sg +:+ ds, r2)
        else Some (EmptyString, s3)
    | EmptyString => Some (EmptyString, s3)
    end;
  Some (sign +:+ int +:+ frac +:+ exp, s4).

(** [strip_prefix p s] removes the literal [p] from the front of [s]. *)
Fixpoint strip_prefix (p s : string) : option string :=
  match p, s with
  | EmptyString, _ => Some s
  | String a p', String b s' =>
      if Ascii.eqb a b then strip_prefix p' s' else None
  | _, _ => None
  end.

(** Values, array elements and object members; every call passes a
    smaller [fuel], and a call chain of two consumes a character. *)
Fixpoint parse_value (fuel : nat) (s : string) : option (json * string) :=
  match fuel with
  | O => None
  | Datatypes.S fuel =>
      match skip_ws s with
      | EmptyString => None
      | String c rest =>
          if Ascii.eqb c quote then
            '(str, r) ← parse_chars rest; Some (JString str, r)
          else if Ascii.eqb c "[" then
            match skip_ws rest with
            | String "]" r => Some (JArray [], r)
            | _ => '(vs, r) ← parse_elements fuel rest; Some (JArray vs, r)
            end
          else if Ascii.eqb c "{" then
            match skip_ws rest with
            | String "}" r => Some (JObject [], r)
            | _ => '(ms, r) ← parse_members fuel rest; Some (JObject ms, r)
            end
          else if Ascii.eqb c "n" then
            r ← strip_prefix "ull" rest; Some (JNull, r)
          else if Ascii.eqb c "t" then
            r ← strip_prefix "rue" rest; Some (JBool true, r)
          else if Ascii.eqb c "f" then
            r ← strip_prefix "alse" rest; Some (JBool false, r)
          else
            '(lexeme, r) ← parse_number (String c rest);
            Some (JNumber lexeme, r)
      end
  end
with parse_elements (fuel : nat) (s : string)
  : option (list json * string) :=
  match fuel with
  | O => None
  | Datatypes.S fuel =>
      '(v, r) ← parse_value fuel s;
      match skip_ws r with
      | String "," r' =>
          '(vs, r'') ← parse_elements fuel r'; Some (v :: vs, r'')
      | String "]" r' => Some ([v], r')
      | _ => None
      end
  end
with parse_members (fuel : nat) (s : string)
  : option (list (string * json) * string) :=
  match fuel with
  | O => None
  | Datatypes.S fuel =>
      match skip_ws s with
      | String c r0 =>
          if Ascii.eqb c quote then
            '(k, r1) ← parse_chars r0;
            match skip_ws r1 with
            | String ":" r2 =>
                '(v, r3) ← parse_value fuel r2;
                match skip_ws r3 with
                | String "," r4 =>
                    '(ms, r5) ← parse_members fuel r4;
                    Some ((k, v) :: ms, r5)
                | String "}" r4 => Some ([(k, v)], r4)
                | _ => None
                end
            | _ => None
            end
          else None
      | EmptyString => None
      end
  end.

(** [JSON.parse(text)]: [None] stands for the SyntaxError it throws. *)
Definition JSON_parse (text : string) : option json :=
  '(v, r) ← parse_value (2 * String.length text + 2) text;
  match skip_ws r with
  | EmptyString => Some v
  | _ => None
  end.

(** [obj[key]] on the members of a parsed object: of two members with
    one key the later one is the property. *)
Fixpoint get_member (key : string) (members : list (string * json))
  : option json :=
  match members with
  | [] => None
  | (k, v) :: rest =>
      match get_member key rest with
      | Some v' => Some v'
      | None => if String.eqb key k then Some v else None
      end
  end.

(** The outcome of reading a property: a value, [undefined], or the
    TypeError thrown on [null]. *)
Inductive property : Type :=
| Value (v : json)
| Undefined
| TypeError.

(** [jsonObj.type] for a parsed value: arrays, strings, numbers and
    booleans have no such property. *)
Definition get_type (jsonObj : json) : property :=
  match jsonObj with
  | JNull => TypeError
  | JObject members =>
      match get_member "type" members with
      | Some v => Value v
      | None => Undefined
      end
  | _ => Undefined
  end.

(** [p === 'literal']. *)
Definition strict_eq (p : property) (literal : string) : bool :=
  match p with
  | Value (JString s) => String.eqb s literal
  | _ => false
  end.


(** What a function call leaves behind: it returns, or it throws; both
    carry the state at that point. *)
Inductive completion (A : Type) : Type :=
| Normal (a : A)
| Throws (error : string) (a : A).
Arguments Normal {A} a.
Arguments Throws {A} error a.

Definition state_after {A : Type} (c : completion A) : A :=
  match c with
  | Normal a => a
  | Throws _ a => a
  end.

(** A call of [console.log], [console.warn] or [console.error]: the
    fixed text and the printed arguments. *)
Inductive console_call : Type :=
| console_log (text : string) (args : list string)
| console_warn (text : string) (args : list string)
| console_error (text : string) (args : list string).

(** A settled promise. *)
Inductive settled (A : Type) : Type :=
| Fulfilled (a : A)
| Rejected (reason : string).
Arguments Fulfilled {A} a.
Arguments Rejected {A} reason.

(** An [async] computation: the promise it settles to and what it
    printed on the way. *)
Definition async (A : Type) : Type := settled A * list console_call.

Definition resolve {A : Type} (a : A) : async A := (Fulfilled a, []).

Definition print (c : console_call) : async unit := (Fulfilled tt, [c]).

(** [const x = await m; k x]: a rejection of [m] skips [k]. *)
Definition await {A B : Type} (m : async A) (k : A -> async B) : async B :=
  match m with
  | (Fulfilled a, out) => let '(r, out') := k a in (r, out ++ out')
  | (Rejected e, out) => (Rejected e, out)
  end.

(** [try { body } catch (error) { handler error }]. *)
Definition try_catch {A : Type} (body : async A)
    (handler : string -> async A) : async A :=
  match body with
  | (Fulfilled a, out) => (Fulfilled a, out)
  | (Rejected e, out) => let '(r, out') := handler e in (r, out ++ out')
  end.

(** [k * x] for an integer [k]. *)
Definition mul (k : Z) (x : number) : number :=
  match x with
  | Num q => Num (inject_Z k * q)
  | NaN => NaN
  | Infinity negative =>
      if k =? 0 then NaN else Infinity (xorb negative (k <? 0))
  end.

End JS.

(* ===================================================================== *)
(** ** helpers/audio.ts                                                    *)
(* ===================================================================== *)

Module Audio.
Import JS.

(** [getAverageVolume]: the loop adds [array[i]] to [values] for every
    index, then divides by [array.length] with no guard. *)
Definition getAverageVolume (array : Uint8Array) : number :=
  let values :=
    for_loop (length array) 0
      (fun i values => values + int32_at array i) 0 in
  div values (Z.of_nat (length array)).

(** The sum of the elements, written as the claim words it. *)
Definition sum_of_elements (array : Uint8Array) : Z :=
  foldr Z.add 0 (u8 <$> array).

(** The arithmetic mean of a non-empty array. *)
Definition arithmetic_mean (array : Uint8Array) : Q :=
  (inject_Z (sum_of_elements array) / inject_Z (Z.of_nat (length array)))%Q.

End Audio.

(* ===================================================================== *)
(** ** api/audioStream.ts                                                  *)
(* ===================================================================== *)

Module AudioStream.
Import JS.

Abbreviation Blob := (list byte).

(** The request [axios.post] is called with. *)
Record request : Type := {
  target : string;
  authorization : string;
  file : Blob
}.

(** A frame as [socket.onmessage] sees it with
    [binaryType = 'arraybuffer']: an [ArrayBuffer] or a string. *)
Inductive frame : Type :=
| ArrayBuffer (bytes : Uint8Array)
| Text (data : string).

(** The text of a string literal in a frame, for a string that needs no
    escapes. *)
Definition quoted (s : string) : string :=
  String quote s +:+ String quote EmptyString.

(** The text of an object with string members, as [JSON.stringify] or
    the server writes it: no white space, the members in order. *)
Fixpoint members_text (members : list (string * string)) : string :=
  match members with
  | [] => EmptyString
  | [(k, v)] => quoted k +:+ ":" +:+ quoted v
  | (k, v) :: rest => quoted k +:+ ":" +:+ quoted v +:+ "," +:+ members_text rest
  end.

Definition object_text (members : list (string * string)) : string :=
  "{" +:+ members_text members +:+ "}".

(** The end-of-dialog-step message of the protocol. *)
Definition END_OF_DIALOG_STEP : frame :=
  Text (object_text [("type", "END_OF_DIALOG_STEP")]).

(** The response [axios.post] is fulfilled with. *)
Record Response : Type := {
  status : Z;
  data : string
}.

Section Network.
(** [API_URL] of constants.ts, fixed by the build environment. *)
Variable API_URL : string.
(** The network: how [axios.post] settles for a request.  It rejects
    on a transport failure and on every status outside 2xx. *)
Variable axios_post : request -> settled Response.

(** [localStorage.getItem("token")] inside a template literal: a
    missing item prints as null. *)
Definition bearer (localStorage : gmap string string) : string :=
  "Bearer " +:+ default "null" (localStorage !! "token").

(** [sendAudioBlob]: the value of the [try] block is the response;
    the [catch] block prints and falls off the end of the function,
    so the promise is fulfilled with [undefined] ([None]). *)
Definition sendAudioBlob (localStorage : gmap string string)
    (blob : Blob) : async (option Response) :=
  let formData := blob in
  try_catch
    (await
       (axios_post {| target := API_URL +:+ "/receive_audio_blob";
                      authorization := bearer localStorage;
                      file := formData |}, [])
       (fun response => resolve (Some response)))
    (fun error =>
       await (print (console_error "Error sending audio blob: " [error]))
         (fun _ => resolve None)).
End Network.

(** What the handlers of [getAudioStream] do with their callbacks. *)
Inductive action : Type :=
| queueAudio (pcmData : Uint8Array)
| onStreamEnd
| console (c : console_call).

(** [onStreamEnd?.()]: nothing when the callback was not passed. *)
Definition call_onStreamEnd (has_onStreamEnd : bool) : list action :=
  if has_onStreamEnd then [onStreamEnd] else [].

Definition caught (data error : string) : list action :=
  [console (console_warn "Received non-binary message:" [data]);
   console (console_error "Received error:" [error])].

(** [socket.onmessage] of [getAudioStream]. *)
Definition onmessage (has_onStreamEnd : bool) (event_data : frame)
  : list action :=
  match event_data with
  | ArrayBuffer bytes => [queueAudio bytes]
  | Text data =>
      match JSON_parse data with
      | None => caught data "SyntaxError"
      | Some jsonData =>
          match get_type jsonData with
          | TypeError => caught data "TypeError"
          | type =>
              if strict_eq type "END_OF_STREAM" then
                console (console_log "End of stream received" [])
                  :: call_onStreamEnd has_onStreamEnd
              else []
          end
      end
  end.

End AudioStream.

(* ===================================================================== *)
(** ** components/ai/VoiceInteraction.tsx                                  *)
(* ===================================================================== *)

Module Voice.
Import JS.
Export AudioStream (frame, ArrayBuffer, Text).
Abbreviation Blob := (list byte).

(** An [AudioBuffer] of one channel. *)
Record AudioBuffer : Type := {
  channelData : list Q;
  bufferRate : Z
}.

(** [audioBuffer.duration]: frames over frames per second. *)
Definition duration (b : AudioBuffer) : Q :=
  (inject_Z (Z.of_nat (length (channelData b))) / inject_Z (bufferRate b))%Q.

(** A buffer source after [source.start(when)]. *)
Record source : Type := {
  buffer : AudioBuffer;
  when : Q
}.

(** The atoms, the [useState] cell and the refs of the component, the
    sources it has started, and the console. *)
Record state : Type := {
  isRecording : bool;
  receivedMessage : string;
  reasoning : bool;
  aiStatusMessage : string;
  audioContextRef : bool;
  analyserNodeRef : bool;
  audioStartTimeRef : Q;
  allowRecordingRef : bool;
  numSourcesPlaying : Z;
  started : list source;
  console : list console_call
}.

Definition setIsRecording (v : bool) (st : state) : state :=
  {| isRecording := v; receivedMessage := receivedMessage st;
     reasoning := reasoning st; aiStatusMessage := aiStatusMessage st;
     audioContextRef := audioContextRef st;
     analyserNodeRef := analyserNodeRef st;
     audioStartTimeRef := audioStartTimeRef st;
     allowRecordingRef := allowRecordingRef st;
     numSourcesPlaying := numSourcesPlaying st;
     started := started st; console := console st |}.

Definition setReceivedMessage (v : string) (st : state) : state :=
  {| isRecording := isRecording st; receivedMessage := v;
     reasoning := reasoning st; aiStatusMessage := aiStatusMessage st;
     audioContextRef := audioContextRef st;
     analyserNodeRef := analyserNodeRef st;
     audioStartTimeRef := audioStartTimeRef st;
     allowRecordingRef := allowRecordingRef st;
     numSourcesPlaying := numSourcesPlaying st;
     started := started st; console := console st |}.

Definition setReasoning (v : bool) (st : state) : state :=
  {| isRecording := isRecording st; receivedMessage := receivedMessage st;
     reasoning := v; aiStatusMessage := aiStatusMessage st;
     audioContextRef := audioContextRef st;
     analyserNodeRef := analyserNodeRef st;
     audioStartTimeRef := audioStartTimeRef st;
     allowRecordingRef := allowRecordingRef st;
     numSourcesPlaying := numSourcesPlaying st;
     started := started st; console := console st |}.

Definition setAiStatusMessage (v : string) (st : state) : state :=
  {| isRecording := isRecording st; receivedMessage := receivedMessage st;
     reasoning := reasoning st; aiStatusMessage := v;
     audioContextRef := audioContextRef st;
     analyserNodeRef := analyserNodeRef st;
     audioStartTimeRef := audioStartTimeRef st;
     allowRecordingRef := allowRecordingRef st;
     numSourcesPlaying := numSourcesPlaying st;
     started := started st; console := console st |}.

Definition set_audioContextRef (v : bool) (st : state) : state :=
  {| isRecording := isRecording st; receivedMessage := receivedMessage st;
     reasoning := reasoning st; aiStatusMessage := aiStatusMessage st;
     audioContextRef := v;
     analyserNodeRef := analyserNodeRef st;
     audioStartTimeRef := audioStartTimeRef st;
     allowRecordingRef := allowRecordingRef st;
     numSourcesPlaying := numSourcesPlaying st;
     started := started st; console := console st |}.

Definition set_analyserNodeRef (v : bool) (st : state) : state :=
  {| isRecording := isRecording st; receivedMessage := receivedMessage st;
     reasoning := reasoning st; aiStatusMessage := aiStatusMessage st;
     audioContextRef := audioContextRef st;
     analyserNodeRef := v;
     audioStartTimeRef := audioStartTimeRef st;
     allowRecordingRef := allowRecordingRef st;
     numSourcesPlaying := numSourcesPlaying st;
     started := started st; console := console st |}.

Definition set_audioStartTimeRef (v : Q) (st : state) : state :=
  {| isRecording := isRecording st; receivedMessage := receivedMessage st;
     reasoning := reasoning st; aiStatusMessage := aiStatusMessage st;
     audioContextRef := audioContextRef st;
     analyserNodeRef := analyserNodeRef st;
     audioStartTimeRef := v;
     allowRecordingRef := allowRecordingRef st;
     numSourcesPlaying := numSourcesPlaying st;
     started := started st; console := console st |}.

Definition set_allowRecordingRef (v : bool) (st : state) : state :=
  {| isRecording := isRecording st; receivedMessage := receivedMessage st;
     reasoning := reasoning st; aiStatusMessage := aiStatusMessage st;
     audioContextRef := audioContextRef st;
     analyserNodeRef := analyserNodeRef st;
     audioStartTimeRef := audioStartTimeRef st;
     allowRecordingRef := v;
     numSourcesPlaying := numSourcesPlaying st;
     started := started st; console := console st |}.

Definition set_numSourcesPlaying (v : Z) (st : state) : state :=
  {| isRecording := isRecording st; receivedMessage := receivedMessage st;
     reasoning := reasoning st; aiStatusMessage := aiStatusMessage st;
     audioContextRef := audioContextRef st;
     analyserNodeRef := analyserNodeRef st;
     audioStartTimeRef := audioStartTimeRef st;
     allowRecordingRef := allowRecordingRef st;
     numSourcesPlaying := v;
     started := started st; console := console st |}.

(** [source.start(when)] adds the source to the started ones. *)
Definition start (s : source) (st : state) : state :=
  {| isRecording := isRecording st; receivedMessage := receivedMessage st;
     reasoning := reasoning st; aiStatusMessage := aiStatusMessage st;
     audioContextRef := audioContextRef st;
     analyserNodeRef := analyserNodeRef st;
     audioStartTimeRef := audioStartTimeRef st;
     allowRecordingRef := allowRecordingRef st;
     numSourcesPlaying := numSourcesPlaying st;
     started := started st ++ [s]; console := console st |}.

Definition print (calls : list console_call) (st : state) : state :=
  {| isRecording := isRecording st; receivedMessage := receivedMessage st;
     reasoning := reasoning st; aiStatusMessage := aiStatusMessage st;
     audioContextRef := audioContextRef st;
     analyserNodeRef := analyserNodeRef st;
     audioStartTimeRef := audioStartTimeRef st;
     allowRecordingRef := allowRecordingRef st;
     numSourcesPlaying := numSourcesPlaying st;
     started := started st; console := console st ++ calls |}.

(** The component before its effects have run: the defaults of the
    atoms, of [useState] and of every [useRef]. *)
Definition initial : state :=
  {| isRecording := false; receivedMessage := "";
     reasoning := false;
     aiStatusMessage := "Press the space bar to speak!";
     audioContextRef := false; analyserNodeRef := false;
     audioStartTimeRef := 0; allowRecordingRef := true;
     numSourcesPlaying := 0; started := []; console := [] |}.

(** The mount effects that touch this state: the audio context is
    created, then the analyser. *)
Definition mount (st : state) : state :=
  let st := if audioContextRef st then st else set_audioContextRef true st in
  if negb (audioContextRef st) then st
  else if analyserNodeRef st then st else set_analyserNodeRef true st.

Definition handleKeyDown (code : string) (st : state) : state :=
  if String.eqb code "Space" && allowRecordingRef st then
    setAiStatusMessage "Recording..." (setIsRecording true st)
  else st.

(** [handleKeyUp]: the listener is registered anew whenever
    [isRecording] changes, so it reads the current value. *)
Definition handleKeyUp (code : string) (st : state) : state :=
  if String.eqb code "Space" && isRecording st && allowRecordingRef st then
    setReasoning true
      (setAiStatusMessage "AI is thinking..."
         (setIsRecording false (set_allowRecordingRef false st)))
  else st.

Definition sampleRate : Z := 24000.
Definition numChannels : Z := 1.
Definition bytesPerSample : Z := 2.

(** [pcmData.length / bytesPerSample], a number that need not be whole. *)
Definition totalSamples (pcmData : Uint8Array) : Q :=
  (inject_Z (Z.of_nat (length pcmData)) / inject_Z bytesPerSample)%Q.

(** [createBuffer(numChannels, length, sampleRate)]: the length is
    converted to an unsigned integer by truncation, a length of zero
    is refused with NotSupportedError, the samples start at 0. *)
Definition createBuffer (channels : Z) (len : Q) (rate : Z)
  : option AudioBuffer :=
  let frames := Z.to_nat (Qfloor len) in
  if (frames =? 0)%nat then None
  else Some {| channelData := replicate frames 0%Q; bufferRate := rate |}.

(** The body of the decoding loop for index [i]. *)
Definition decode_sample (pcmData : Uint8Array) (i : nat) : Q :=
  let index := (i * Z.to_nat bytesPerSample)%nat in
  let intSample :=
    Z.lor (int32_at pcmData index)
          (Z.shiftl (int32_at pcmData (index + 1)) 8) in
  let intSample :=
    if 0x8000 <=? intSample then intSample - 0x10000 else intSample in
  (inject_Z intSample / 32768)%Q.

(** [for (let i = 0; i < totalSamples; i++) channelData[i] = ...]: the
    loop runs for every natural number below [totalSamples]; a write
    past the end of a typed array is dropped. *)
Definition decode (pcmData : Uint8Array) (channel : list Q) : list Q :=
  for_loop (Z.to_nat (Qceiling (totalSamples pcmData))) 0
    (fun i channelData => <[i := decode_sample pcmData i]> channelData)
    channel.

(** [queueAudioChunk]. Times are rationals: the sum
    [audioStartTimeRef + duration] is the ideal one, of which the code
    holds the nearest double. What is proved of the schedule compares
    the times of one call with each other and with the clock, which
    rounding keeps in order; nothing is proved of durations added up
    over several calls. *)
Definition queueAudioChunk (currentTime : Q) (pcmData : Uint8Array)
    (st : state) : completion state :=
  if negb (audioContextRef st) then Normal st
  else if (length pcmData =? 0)%nat then Normal st
  else
    match createBuffer numChannels (totalSamples pcmData) sampleRate with
    | None => Throws "NotSupportedError" st
    | Some audioBuffer =>
        let audioBuffer :=
          {| channelData := decode pcmData (channelData audioBuffer);
             bufferRate := bufferRate audioBuffer |} in
        let st :=
          if analyserNodeRef st then st else set_analyserNodeRef true st in
        let st :=
          if Qlt_le_dec (audioStartTimeRef st) currentTime
          then set_audioStartTimeRef currentTime st else st in
        let st :=
          start {| buffer := audioBuffer; when := audioStartTimeRef st |} st in
        let st :=
          set_audioStartTimeRef
            (audioStartTimeRef st + duration audioBuffer)%Q st in
        let st := set_numSourcesPlaying (numSourcesPlaying st + 1) st in
        let st := setAiStatusMessage "AI is speaking..." st in
        Normal (setReasoning false st)
    end.

(** [source.onended] of a started source. *)
Definition onended (st : state) : state :=
  let st := set_numSourcesPlaying (numSourcesPlaying st - 1) st in
  let st :=
    print [console_log "Audio source ended, remaining sources playing:"
             [pretty (numSourcesPlaying st)]] st in
  if numSourcesPlaying st =? 0 then
    let st :=
      print [console_log
               "Played all the audio buffer, based numSourcesPlaying" []] st in
    setAiStatusMessage "Press the space bar to speak!"
      (set_allowRecordingRef true st)
  else st.

Definition onStreamEnd (st : state) : state :=
  print [console_log "Stream ended" []] st.

Definition caught (data error : string) (st : state) : state :=
  print [console_warn "Received non-binary message:" [data];
         console_error "Received error:" [error]] st.

(** [socket.onmessage]. *)
Definition onmessage (event_data : frame) (currentTime : Q) (st : state)
  : completion state :=
  match event_data with
  | ArrayBuffer bytes => queueAudioChunk currentTime bytes st
  | Text data =>
      Normal
        match JSON_parse data with
        | None => caught data "SyntaxError" st
        | Some jsonObj =>
            match get_type jsonObj with
            | TypeError => caught data "TypeError" st
            | type =>
                if strict_eq type "END_OF_STREAM" then
                  onStreamEnd
                    (print [console_log "End of stream received" []] st)
                else if strict_eq type "show_image" then
                  setReceivedMessage data
                    (print [console_log "Websocket got message:"
                              ["show_image"]] st)
                else st
            end
        end
  end.

Definition onclose (st : state) : state :=
  onStreamEnd (print [console_log "WebSocket connection closed" []] st).

Definition onerror (error : string) (st : state) : state :=
  onStreamEnd (print [console_error "WebSocket error:" [error]] st).

Section Mounted.
(** The build constant and the browser storage; nothing changes them
    while the component is mounted. *)
Variable API_URL : string.
Variable localStorage : gmap string string.

Definition sendAudio
    (axios_post : AudioStream.request -> settled AudioStream.Response)
    (recordedBlob : Blob) : async unit :=
  await (JS.print (console_log "Sending audio blob..." []))
    (fun _ =>
       await (AudioStream.sendAudioBlob API_URL axios_post localStorage
                recordedBlob)
         (fun _ => resolve tt)).

(** [onStop]: [setIsRecording(false)] runs when [sendAudio] is
    fulfilled. *)
Definition onStop
    (axios_post : AudioStream.request -> settled AudioStream.Response)
    (recordedBlob : Blob) (st : state) : state :=
  match sendAudio axios_post recordedBlob with
  | (Fulfilled _, out) => setIsRecording false (print out st)
  | (Rejected _, out) => print out st
  end.

(** What can happen to the mounted component: a key goes down or up,
    a frame arrives while the audio clock shows [currentTime], a
    started source ends, ReactMic hands over a recording while the
    network behaves as [axios_post], the socket closes or fails. *)
Inductive event : Type :=
| KeyDown (code : string)
| KeyUp (code : string)
| Message (event_data : frame) (currentTime : Q)
| Ended
| Stop (recordedBlob : Blob)
    (axios_post : AudioStream.request -> settled AudioStream.Response)
| Close
| Error (error : string).

Definition step (e : event) (st : state) : state :=
  match e with
  | KeyDown code => handleKeyDown code st
  | KeyUp code => handleKeyUp code st
  | Message event_data currentTime =>
      state_after (onmessage event_data currentTime st)
  | Ended => onended st
  | Stop recordedBlob axios_post => onStop axios_post recordedBlob st
  | Close => onclose st
  | Error error => onerror error st
  end.

(** The events of a trace, oldest first. *)
Definition run (events : list event) (st : state) : state :=
  foldl (fun st e => step e st) st events.

(** No source of the trace ends as the last one playing: whenever a
    source ends, another one is still counted. *)
Fixpoint playback_goes_on (events : list event) (st : state) : bool :=
  match events with
  | [] => true
  | e :: rest =>
      match e with
      | Ended => negb (numSourcesPlaying st =? 1)
      | _ => true
      end && playback_goes_on rest (step e st)
  end.
End Mounted.

(** The signed little-endian 16-bit integer formed from two bytes, as the
    claim words it: the first byte is the low one, and the 16 bits are
    read in two's complement. *)
Definition signed_int16_le (lo hi : byte) : Z :=
  (u8 lo + 256 * u8 hi + 32768) mod 65536 - 32768.

(** The samples of the sources a call has started. *)
Definition decoded (before : state) (after : completion state) : list Q :=
  concat (map (fun s => channelData (buffer s))
            (drop (length (started before)) (started (state_after after)))).

(** The time at which a started source is scheduled to end. *)
Definition scheduled_end (s : source) : Q :=
  (when s + duration (buffer s))%Q.

(** Calls of [queueAudioChunk] one after the other, each with the reading
    of the audio clock at that call; a call that throws leaves the state
    as it found it. *)
Definition queueAudioChunks (calls : list (Q * Uint8Array)) (st : state)
  : state :=
  foldl (fun st call => state_after (queueAudioChunk call.1 call.2 st))
    st calls.

(** The scheduled end time of the chunk before chunk [i]; before the
    first chunk it is the initial value of [audioStartTimeRef]. *)
Definition end_before (i : nat) (sources : list source) : Q :=
  match i with
  | O => audioStartTimeRef initial
  | S j => default 0%Q (scheduled_end <$> sources !! j)
  end.

(** The calls that carry at least one whole sample. *)
Definition playable (calls : list (Q * Uint8Array)) : list (Q * Uint8Array) :=
  filter (fun call => (2 <= length call.2)%nat) calls.

(** What holds of a started source, the call it comes from and the
    sources started before it. *)
Definition scheduled_as (sources : list source) (i : nat)
    (call : Q * Uint8Array) (src : source) : Prop :=
  channelData (buffer src)
    = decode call.2 (replicate (length call.2 / 2) 0%Q) /\
  (when src = call.1 \/ when src = end_before i sources) /\
  (call.1 <= when src)%Q /\
  (end_before i sources <= when src)%Q /\
  ((call.1 <= end_before i sources)%Q -> when src = end_before i sources) /\
  forall (j : nat) (earlier : source),
    (j < i)%nat -> sources !! j = Some earlier ->
    (scheduled_end earlier <= when src)%Q.

(** The invariant of a sequence of calls. *)
Definition schedule_invariant (calls : list (Q * Uint8Array)) (st : state)
  : Prop :=
  audioContextRef st = true /\
  audioStartTimeRef st = end_before (length (started st)) (started st) /\
  length (started st) = length (playable calls) /\
  (forall (j : nat) (earlier : source),
     started st !! j = Some earlier ->
     (scheduled_end earlier <= audioStartTimeRef st)%Q) /\
  forall (i : nat) (call : Q * Uint8Array),
    playable calls !! i = Some call ->
    exists src : source,
      started st !! i = Some src /\ scheduled_as (started st) i call src.

(** Pressing the space bar starts a recording. *)
Definition can_record (st : state) : Prop :=
  isRecording (handleKeyDown "Space" st) = true.

(** A trace of what the user does and of the audio that arrives: keys
    pressed and released, recordings handed over for upload, binary
    frames. *)
Definition keys_uploads_and_audio (events : list event) : bool :=
  forallb (fun e => match e with
                    | KeyDown _ | KeyUp _ | Stop _ _ => true
                    | Message (ArrayBuffer _) _ => true
                    | _ => false
                    end) events.



(** The body of [updateAnimation] for the frequency data the analyser
    has filled in: the value given to [setDistortion]. *)
Definition updateAnimation (frequencyDataArray : Uint8Array) : number :=
  if existsb (fun value => 0 <? u8 value) frequencyDataArray then
    let average := Audio.getAverageVolume frequencyDataArray in
    mul 2 average
  else Num 0.

(** A callback of [getAudioStream] carried out on the component:
    [queueAudio] is [queueAudioChunk], [onStreamEnd] is the component's
    own. *)
Definition perform (a : AudioStream.action) (currentTime : Q) (st : state)
  : completion state :=
  match a with
  | AudioStream.queueAudio pcmData => queueAudioChunk currentTime pcmData st
  | AudioStream.onStreamEnd => Normal (onStreamEnd st)
  | AudioStream.console c => Normal (print [c] st)
  end.

(** The callbacks of one handler run, in order; a throw ends the run. *)
Fixpoint perform_all (actions : list AudioStream.action) (currentTime : Q)
    (st : state) : completion state :=
  match actions with
  | [] => Normal st
  | a :: rest =>
      match perform a currentTime st with
      | Normal st' => perform_all rest currentTime st'
      | Throws error st' => Throws error st'
      end
  end.

(** The number of sources that have ended in a trace. *)
Definition ended_sources (events : list event) : nat :=
  length (List.filter (fun e => match e with Ended => true | _ => false end)
            events).

(** The text frames of a trace whose parsed [type] is [show_image]. *)
Definition show_image_texts (events : list event) : list string :=
  flat_map
    (fun e =>
       match e with
       | Message (Text data) _ =>
           match JSON_parse data with
           | Some jsonObj =>
               if strict_eq (get_type jsonObj) "show_image" then [data]
               else []
           | None => []
           end
       | _ => []
       end) events.

(** Whether a frame is a text whose parsed [type] is [show_image]. *)
Definition asks_to_show_image (event_data : frame) : bool :=
  match event_data with
  | ArrayBuffer _ => false
  | Text data =>
      match JSON_parse data with
      | Some jsonObj => strict_eq (get_type jsonObj) "show_image"
      | None => false
      end
  end.

End Voice.

(* ===================================================================== *)
(** ** The streaming channel: Login.tsx, App.tsx and the socket effect of
       VoiceInteraction.tsx                                                *)
(* ===================================================================== *)

Module Channel.

(** [WebSocket.readyState]. *)
Inductive ready_state : Type :=
| CONNECTING
| OPEN
| CLOSING
| CLOSED.

Record WebSocket : Type := {
  url : string;
  readyState : ready_state
}.

(** A socket the browser still holds a connection (or an attempt) for. *)
Definition live (s : WebSocket) : bool :=
  match readyState s with
  | CONNECTING | OPEN => true
  | CLOSING | CLOSED => false
  end.

(** The browser: its storage and every socket constructed so far, in
    order of construction. *)
Record browser : Type := {
  localStorage : gmap string string;
  sockets : list WebSocket
}.

(** [socket.close()] on an open socket starts the closing handshake. *)
Definition close (s : WebSocket) : WebSocket :=
  {| url := url s; readyState := CLOSING |}.

Section Constants.
(** [WEBSOCKET_URL] of constants.ts, fixed by the build environment. *)
Variable WEBSOCKET_URL : string.

(** The address the effect connects to; a missing item prints as null. *)
Definition address (storage : gmap string string) : string :=
  WEBSOCKET_URL +:+ "/audio/" +:+ default "null" (storage !! "session_id").

(** The socket effect of VoiceInteraction: it constructs one socket and
    returns the cleanup, which holds on to that socket (its index). *)
Definition effect (b : browser) : browser * nat :=
  let session_id := default "null" (localStorage b !! "session_id") in
  let socket :=
    {| url := WEBSOCKET_URL +:+ "/audio/" +:+ session_id;
       readyState := CONNECTING |} in
  ({| localStorage := localStorage b; sockets := sockets b ++ [socket] |},
   length (sockets b)).

(** The cleanup the effect returns: the socket is closed only when it is
    open. *)
Definition cleanup (socket : nat) (b : browser) : browser :=
  match sockets b !! socket with
  | Some s =>
      match readyState s with
      | OPEN =>
          {| localStorage := localStorage b;
             sockets := <[socket := close s]> (sockets b) |}
      | _ => b
      end
  | None => b
  end.

(** What the network does to a socket: the connection is established, or
    it ends. *)
Inductive network_event : Type :=
| established
| ended.

Definition network (socket : nat) (e : network_event) (b : browser) : browser :=
  match sockets b !! socket with
  | Some s =>
      let state' :=
        match e, readyState s with
        | established, CONNECTING => OPEN
        | established, other => other
        | ended, _ => CLOSED
        end in
      {| localStorage := localStorage b;
         sockets := <[socket := {| url := url s; readyState := state' |}]>
                      (sockets b) |}
  | None => b
  end.

(** The page: App's [isAuthenticated], Login's [loading], and the socket
    of the mounted VoiceInteraction, if it is mounted. *)
Record page : Type := {
  storage : browser;
  isAuthenticated : bool;
  loading : bool;
  voice : option nat
}.

Definition start_page : page :=
  {| storage := {| localStorage := ∅; sockets := [] |};
     isAuthenticated := false; loading := false; voice := None |}.

(** [handleSubmit]: the form is on the page while Login is rendered and
    not loading; [handleLogin] then sets [loading]. *)
Definition handleSubmit (p : page) : page :=
  if isAuthenticated p || loading p then p
  else {| storage := storage p; isAuthenticated := false; loading := true;
          voice := voice p |}.

(** The rest of [handleLogin], run when the response of [/login] is in:
    on success the token and the session id are stored and App renders
    AIShowroom, which mounts VoiceInteraction and runs its effect. *)
Definition handleLogin (ok : bool) (token session_id : string) (p : page)
  : page :=
  if negb (loading p) then p
  else if ok then
    let b :=
      {| localStorage :=
           <["session_id" := session_id]>
             (<["token" := token]> (localStorage (storage p)));
         sockets := sockets (storage p) |} in
    if isAuthenticated p then
      {| storage := b; isAuthenticated := true; loading := false;
         voice := voice p |}
    else
      let '(b', socket) := effect b in
      {| storage := b'; isAuthenticated := true; loading := false;
         voice := Some socket |}
  else
    {| storage := storage p; isAuthenticated := isAuthenticated p;
       loading := false; voice := voice p |}.

Inductive page_event : Type :=
| Submit
| LoginResponse (ok : bool) (token session_id : string)
| Network (socket : nat) (e : network_event).

Definition page_step (e : page_event) (p : page) : page :=
  match e with
  | Submit => handleSubmit p
  | LoginResponse ok token session_id => handleLogin ok token session_id p
  | Network socket ev =>
      {| storage := network socket ev (storage p);
         isAuthenticated := isAuthenticated p; loading := loading p;
         voice := voice p |}
  end.

Definition page_run (events : list page_event) (p : page) : page :=
  foldl (fun p e => page_step e p) p events.

(** The lifecycle React may put the component through: the effect on
    mount, its cleanup on unmount. *)
Inductive lifecycle : Type :=
| Mount
| Unmount
| Net (socket : nat) (e : network_event).

(** The browser and the socket held by the current cleanup. *)
Definition component : Type := browser * option nat.

Definition lifecycle_step (e : lifecycle) (c : component) : component :=
  match e, c with
  | Mount, (b, None) => let '(b', socket) := effect b in (b', Some socket)
  | Mount, (b, Some socket) => (b, Some socket)
  | Unmount, (b, Some socket) => (cleanup socket b, None)
  | Unmount, (b, None) => (b, None)
  | Net socket ev, (b, held) => (network socket ev b, held)
  end.

Definition lifecycle_run (events : list lifecycle) (c : component)
  : component :=
  foldl (fun c e => lifecycle_step e c) c events.

(** The number of live sockets whose address is [a]. *)
Definition channels (a : string) (b : browser) : nat :=
  length (List.filter (fun s => live s && String.eqb (url s) a) (sockets b)).

(** What holds of the page after any events: before a successful login
    there is no socket; after it there is exactly one, held by the
    mounted component and addressed to the stored session. *)
Definition page_invariant (p : page) : Prop :=
  if isAuthenticated p then
    loading p = false /\ voice p = Some 0%nat /\
    is_Some (localStorage (storage p) !! "session_id") /\
    exists s : WebSocket,
      sockets (storage p) = [s] /\
      url s = address (localStorage (storage p))
  else
    voice p = None /\ sockets (storage p) = [].

(** The number of sockets the browser still holds a connection, or an
    attempt, for. *)
Definition live_sockets (b : browser) : nat :=
  length (List.filter live (sockets b)).

(** No unmount of the trace finds the socket of the component still
    connecting. *)
Fixpoint unmounts_after_open (events : list lifecycle) (c : component)
  : bool :=
  match events with
  | [] => true
  | e :: rest =>
      match e, c with
      | Unmount, (b, Some socket) =>
          match sockets b !! socket with
          | Some s =>
              match readyState s with
              | CONNECTING => false
              | _ => true
              end
          | None => true
          end
      | _, _ => true
      end && unmounts_after_open rest (lifecycle_step e c)
  end.

(** No login of the trace is answered with success. *)
Definition no_success (events : list page_event) : bool :=
  forallb (fun e => match e with
                    | LoginResponse true _ _ => false
                    | _ => true
                    end) events.

(** A component holds the only socket that can be live. *)
Definition holds_the_live_socket (c : component) : Prop :=
  forall (j : nat) (s : WebSocket),
    sockets c.1 !! j = Some s -> live s = true -> c.2 = Some j.

End Constants.
End Channel.

(* ===================================================================== *)
(** ** The server side of a dialog step                                    *)
(* ===================================================================== *)

Module Server.

(** Modelled from the spec: the StepInput of section 3, "either raw
    recorded audio (opaque bytes) or a structured action payload (mapping
    with a mandatory type string and arbitrary additional fields)". The
    server that defines it is not among the sources. *)
Inductive StepInput : Type :=
| audio_blob (bytes : list byte)
| action (type : string) (fields : list (string * string)).

(** Modelled from the spec: the OutboundFrame of section 3, "either a raw
    binary chunk (audio) or a JSON envelope". *)
Inductive OutboundFrame : Type :=
| binary (bytes : list byte)
| envelope (type : string) (fields : list (string * string)).

(** Modelled from the spec: the two reserved types of section 6,
    [end_of_response] and the literal value [END_OF_DIALOG_STEP]. *)
Definition end_of_response : OutboundFrame := envelope "end_of_response" [].

(** Modelled from the spec: the step terminator, "literal value
    END_OF_DIALOG_STEP". *)
Definition end_of_dialog_step : OutboundFrame :=
  envelope "END_OF_DIALOG_STEP" [].


(** Modelled from the spec: the Turn of section 3, reduced to its role
    and text. *)
Inductive role : Type :=
| user
| assistant.

Record Turn : Type := {
  turn_role : role;
  content : string
}.

(** Modelled from the spec: the states of the Turn Gate, section 4.2. *)
Inductive gate : Type :=
| IDLE
| STEP_ACTIVE
| DRAINING.

(** Modelled from the spec: the Session of section 3 with its step state,
    the input of the running step, the FIFO pending queue, the Dialog
    Log, and the Streaming Channel as the frames sent on it and whether
    the transport is connected. [accepted] counts the inputs started or
    queued; [max_depth] is the bound of the queue, [None] for the
    unbounded default. *)
Record session : Type := {
  turn_gate : gate;
  active : option StepInput;
  pending : list StepInput;
  log : list Turn;
  sent : list OutboundFrame;
  connected : bool;
  accepted : nat;
  max_depth : option nat
}.

(** Modelled from the spec: [create()] of the Session Registry, section
    4.1: "generates id, initializes empty log, idle state"; the channel
    is bound and connected. *)
Definition create (bound : option nat) : session :=
  {| turn_gate := IDLE; active := None; pending := []; log := [];
     sent := []; connected := true; accepted := 0; max_depth := bound |}.

(** Modelled from the spec: section 4.2, "IDLE + submit(input) ->
    STEP_ACTIVE, input becomes the active step's input"; "STEP_ACTIVE +
    submit(input) -> input appended to FIFO pending queue"; at the bound
    "further submissions fail with a capacity error rather than silently
    overwriting". Section 6: acceptance "does not require the Turn Gate
    to be IDLE - it is queued otherwise". *)
Definition submit (input : StepInput) (s : session) : session :=
  match turn_gate s with
  | IDLE =>
      {| turn_gate := STEP_ACTIVE; active := Some input;
         pending := pending s; log := log s; sent := sent s;
         connected := connected s; accepted := S (accepted s);
         max_depth := max_depth s |}
  | _ =>
      match max_depth s with
      | Some bound =>
          if (bound <=? length (pending s))%nat then s
          else
            {| turn_gate := turn_gate s; active := active s;
               pending := pending s ++ [input]; log := log s;
               sent := sent s; connected := connected s;
               accepted := S (accepted s); max_depth := max_depth s |}
      | None =>
          {| turn_gate := turn_gate s; active := active s;
             pending := pending s ++ [input]; log := log s;
             sent := sent s; connected := connected s;
             accepted := S (accepted s); max_depth := max_depth s |}
      end
  end.

(** Modelled from the spec: section 4.4, a send on a transport that is
    not connected fails with NotConnected, "that the Step Runner treats
    as fatal for the current step (abort, move session to IDLE, drop
    pending input - the client is assumed gone)". *)
Definition abort (s : session) : session :=
  {| turn_gate := IDLE; active := None; pending := []; log := log s;
     sent := sent s; connected := connected s; accepted := accepted s;
     max_depth := max_depth s |}.

(** Modelled from the spec: [send_binary] and [send_json] of section
    4.4; frames go out in the order of the calls, and a send on a
    transport that is not connected fails ([None]). *)
Definition send (f : OutboundFrame) (s : session) : option session :=
  if connected s then
    Some {| turn_gate := turn_gate s; active := active s;
            pending := pending s; log := log s; sent := sent s ++ [f];
            connected := true; accepted := accepted s;
            max_depth := max_depth s |}
  else None.

(** Modelled from the spec: a send by the Step Runner, for which a
    failed send is fatal to the step. *)
Definition send_or_abort (f : OutboundFrame) (s : session) : session :=
  match send f s with
  | Some s' => s'
  | None => abort s
  end.

(** Modelled from the spec: [append(turn)] of the Dialog Log, section
    4.3, "always permitted, append-only". *)
Definition append (turns : list Turn) (s : session) : session :=
  {| turn_gate := turn_gate s; active := active s; pending := pending s;
     log := log s ++ turns; sent := sent s; connected := connected s;
     accepted := accepted s; max_depth := max_depth s |}.

(** Modelled from the spec: a transition of the Turn Gate to the state
    [g]. *)
Definition enter (g : gate) (s : session) : session :=
  {| turn_gate := g; active := active s; pending := pending s;
     log := log s; sent := sent s; connected := connected s;
     accepted := accepted s; max_depth := max_depth s |}.

(** Modelled from the spec: section 4.2, "DRAINING -> IDLE after the
    step-terminator frame is sent; if the pending queue is non-empty,
    immediately re-enter STEP_ACTIVE with the next queued input (FIFO
    order)". *)
Definition release (s : session) : session :=
  match pending s with
  | [] =>
      {| turn_gate := IDLE; active := None; pending := []; log := log s;
         sent := sent s; connected := connected s; accepted := accepted s;
         max_depth := max_depth s |}
  | next :: rest =>
      {| turn_gate := STEP_ACTIVE; active := Some next; pending := rest;
         log := log s; sent := sent s; connected := connected s;
         accepted := accepted s; max_depth := max_depth s |}
  end.

(** Modelled from the spec: the neutral turn of a failed step (section
    5, "a neutral no response turn, not a crash"). *)
Definition failure_turn : Turn := {| turn_role := assistant; content := "" |}.

(** Modelled from the spec: what moves a session. The client submits;
    the Agent yields a chunk, completes a response, signals that the
    entire step is finished (with its turns), or fails (an error or the
    deadline); the transport is lost. *)
Inductive event : Type :=
| Submit (input : StepInput)
| Chunk (f : OutboundFrame)
| ResponseComplete
| StepComplete (turns : list Turn)
| AgentFailure
| TransportLost.

(** Modelled from the spec: the end of a step by the Step Runner itself,
    section 4.5 step 8, "send end of dialog step, and release the Turn
    Gate", through the states of section 4.2: "STEP_ACTIVE -> DRAINING
    when the Agent signals completion", "DRAINING -> IDLE after the
    step-terminator frame is sent". A send that fails is fatal as in
    section 4.4. *)
Definition terminate (s : session) : session :=
  match send end_of_dialog_step (enter DRAINING s) with
  | Some s' => release s'
  | None => abort s
  end.

(** Modelled from the spec: the Step Runner of section 4.5 over the Turn
    Gate of section 4.2. Step 2: a chunk is forwarded at once; step 4:
    a completed response sends the end of response marker and the gate
    stays STEP_ACTIVE; step 8: when the entire step is finished the
    turns are appended, the end of dialog step marker is sent and the
    gate released. Failure handling: "the Step Runner still must emit
    end of dialog step", and by section 7 it "appends a neutral failure
    turn and still emits both terminator frames". *)
Definition step (e : event) (s : session) : session :=
  match e with
  | Submit input => submit input s
  | Chunk f =>
      match turn_gate s with
      | STEP_ACTIVE => send_or_abort f s
      | _ => s
      end
  | ResponseComplete =>
      match turn_gate s with
      | STEP_ACTIVE => send_or_abort end_of_response s
      | _ => s
      end
  | StepComplete turns =>
      match turn_gate s with
      | STEP_ACTIVE => terminate (append turns s)
      | _ => s
      end
  | AgentFailure =>
      match turn_gate s with
      | STEP_ACTIVE =>
          match send end_of_response (append [failure_turn] s) with
          | Some s' => terminate s'
          | None => abort (append [failure_turn] s)
          end
      | _ => s
      end
  | TransportLost =>
      {| turn_gate := turn_gate s; active := active s; pending := pending s;
         log := log s; sent := sent s; connected := false;
         accepted := accepted s; max_depth := max_depth s |}
  end.

(** The events of a trace, oldest first. *)
Definition run (events : list event) (s : session) : session :=
  foldl (fun s e => step e s) s events.









End Server.

(* ===================================================================== *)
(** ** components/showroom/CarShowroom.tsx and AIShowroom.tsx              *)
(* ===================================================================== *)

Module Showroom.
Import JS.

(** The value of a run of decimal digits that follows the digits already
    read as [acc]. *)
Fixpoint digits_value (acc : Z) (digits : string) : Z :=
  match digits with
  | EmptyString => acc
  | String c rest =>
      digits_value (acc * 10 + (Z.of_nat (nat_of_ascii c) - 48)) rest
  end.

(** A number lexeme as an unsigned mantissa and a power of ten: the
    value is, up to its sign, the mantissa times ten to the exponent. *)
Definition number_parts (lexeme : string) : Z * Z :=
  let unsigned :=
    match lexeme with
    | String "-" rest => rest
    | _ => lexeme
    end in
  let '(int, r1) := take_digits unsigned in
  let '(frac, r2) :=
    match r1 with
    | String "." rest => take_digits rest
    | _ => (EmptyString, r1)
    end in
  let exponent :=
    match r2 with
    | String _ (String "-" digits) => - digits_value 0 digits
    | String _ (String "+" digits) => digits_value 0 digits
    | String _ digits => digits_value 0 digits
    | EmptyString => 0
    end in
  (digits_value 0 (int +:+ frac), exponent - Z.of_nat (String.length frac)).

(** Whether the number a lexeme is read as is zero: the value is zero,
    or so small that the nearest double is zero, which is the case up to
    and including 2^-1075. *)
Definition number_is_zero (lexeme : string) : bool :=
  let '(mantissa, exponent) := number_parts lexeme in
  (mantissa =? 0)
  || ((exponent <? 0) && (mantissa * 2 ^ 1075 <=? 10 ^ (- exponent))).

(** [value[key]] for a parsed value and a key that no prototype
    defines: the member of an object, [undefined] on arrays and
    primitives, a TypeError on [null]. *)
Definition get_property (key : string) (value : json) : property :=
  match value with
  | JNull => TypeError
  | JObject members =>
      match get_member key members with
      | Some v => Value v
      | None => Undefined
      end
  | _ => Undefined
  end.

(** Whether a value counts as true in a condition. *)
Definition truthy (p : property) : bool :=
  match p with
  | Value JNull => false
  | Value (JBool b) => b
  | Value (JNumber lexeme) => negb (number_is_zero lexeme)
  | Value (JString s) => negb (String.eqb s "")
  | Value (JArray _) => true
  | Value (JObject _) => true
  | Undefined => false
  | TypeError => false
  end.

(** A value that [imageUrl.startsWith] can be called on, or that the
    condition before it skips: a string, or a value that counts as
    false. *)
Definition text_or_false (p : property) : bool :=
  match p with
  | Value (JString _) => true
  | _ => negb (truthy p)
  end.

(** [p || fallback]. *)
Definition or_else (p : property) (fallback : json) : json :=
  match p with
  | Value v => if truthy p then v else fallback
  | _ => fallback
  end.

(** What [setCar] is given: an object, by its members, where of two
    members with one key the later one is the property; or an array
    that has been given an empty [colorOptions]. *)
Inductive car_data : Type :=
| car_object (members : list (string * json))
| car_array (items : list json).

(** The state of CarShowroom: its [useState] cell and the console. *)
Record state : Type := {
  car : option car_data;
  console : list console_call
}.

Definition setCar (carData : car_data) (st : state) : state :=
  {| car := Some carData; console := console st |}.

(** The [catch] block of the effect. *)
Definition failed (error : string) (st : state) : state :=
  {| car := car st;
     console := console st
                ++ [console_error "Failed to parse receivedMessage" [error]] |}.

Section Static.
(** [API_URL] of constants.ts, fixed by the build environment. *)
Variable API_URL : string.

(** The address given to the image of a [show_image] message: an empty
    path stays empty, a path that starts with http or with a slash is
    kept, any other path is looked for among the static files of the
    back end. *)
Definition image_url (imageUrl : string) : string :=
  if String.eqb imageUrl "" then imageUrl
  else if String.prefix "http" imageUrl then imageUrl
  else if String.prefix "/" imageUrl then imageUrl
  else API_URL +:+ "/static/" +:+ imageUrl.

(** The effect of CarShowroom, run for a value of the received message. *)
Definition useEffect (receivedMessage : string) (st : state) : state :=
  if String.eqb receivedMessage "" then st
  else
    match JSON_parse receivedMessage with
    | None => failed "SyntaxError" st
    | Some parsedData =>
        match get_type parsedData with
        | TypeError => failed "TypeError" st
        | type =>
            if strict_eq type "show_image" then
              match or_else (get_property "image" parsedData) (JString "") with
              | JString imageUrl =>
                  setCar
                    (car_object
                       [("id", JNumber "0");
                        ("image", JString (image_url imageUrl));
                        ("colorName",
                         or_else (get_property "text" parsedData)
                           (JString "Car"));
                        ("colorOptions",
                         or_else (get_property "colorOptions" parsedData)
                           (JArray []));
                        ("price", JNumber "0")])
                    st
              | _ => failed "TypeError" st
              end
            else
              match parsedData with
              | JObject members =>
                  setCar
                    (car_object
                       (if truthy (get_property "colorOptions" parsedData)
                        then members
                        else members ++ [("colorOptions", JArray [])]))
                    st
              | JArray items => setCar (car_array items) st
              | _ => failed "TypeError" st
              end
        end
    end.

(** AIShowroom with the CarShowroom it renders while the sidebar is
    shown: the received message, the two [useState] cells and the atom
    of the sidebar, whether the timer of the fade-in is pending, and the
    state of CarShowroom, which is lost when it is unmounted. *)
Record page : Type := {
  receivedMessage : string;
  showSidebar : bool;
  contentVisible : bool;
  timer : bool;
  showroom : state
}.

Definition start : page :=
  {| receivedMessage := ""; showSidebar := false; contentVisible := false;
     timer := false; showroom := {| car := None; console := [] |} |}.

(** The sidebar opens: the effect of [showSidebar] sets the timer, and
    CarShowroom is mounted with a fresh state and runs its effect. *)
Definition open_sidebar (p : page) : page :=
  {| receivedMessage := receivedMessage p; showSidebar := true;
     contentVisible := contentVisible p; timer := true;
     showroom :=
       useEffect (receivedMessage p)
         {| car := None; console := console (showroom p) |} |}.

(** The sidebar closes: the cleanup clears the timer, the effect hides
    the content, and CarShowroom is unmounted. *)
Definition close_sidebar (p : page) : page :=
  {| receivedMessage := receivedMessage p; showSidebar := false;
     contentVisible := false; timer := false;
     showroom := {| car := None; console := console (showroom p) |} |}.

(** The effect of AIShowroom for a message that is not empty prints it
    before it shows the sidebar. *)
Definition announce (message : string) (st : state) : state :=
  {| car := car st;
     console := console st ++ [console_log "Received Message:" [message]] |}.

(** The atom is set to a message. Setting it to the value it has changes
    nothing and runs no effect. Otherwise, with the sidebar shown,
    CarShowroom runs its effect and then AIShowroom its own, which
    leaves the sidebar shown; with the sidebar hidden, AIShowroom shows
    it for a message that is not empty. *)
Definition receive (message : string) (p : page) : page :=
  if String.eqb message (receivedMessage p) then p
  else if showSidebar p then
    {| receivedMessage := message; showSidebar := true;
       contentVisible := contentVisible p; timer := timer p;
       showroom :=
         let st := useEffect message (showroom p) in
         if String.eqb message "" then st else announce message st |}
  else if String.eqb message "" then
    {| receivedMessage := message; showSidebar := false;
       contentVisible := contentVisible p; timer := timer p;
       showroom := showroom p |}
  else
    open_sidebar
      {| receivedMessage := message; showSidebar := false;
         contentVisible := contentVisible p; timer := timer p;
         showroom := announce message (showroom p) |}.

(** The button: [setShowSidebar(!showSidebar)]. *)
Definition toggle (p : page) : page :=
  if showSidebar p then close_sidebar p else open_sidebar p.

(** The timer fires, if it is pending. *)
Definition timeout (p : page) : page :=
  if timer p then
    {| receivedMessage := receivedMessage p; showSidebar := showSidebar p;
       contentVisible := true; timer := false; showroom := showroom p |}
  else p.

Inductive event : Type :=
| Received (message : string)
| Toggle
| Timeout.

Definition step (e : event) (p : page) : page :=
  match e with
  | Received message => receive message p
  | Toggle => toggle p
  | Timeout => timeout p
  end.

Definition run (events : list event) (p : page) : page :=
  foldl (fun p e => step e p) p events.

(** What holds of the page after any events. *)
Definition page_invariant (p : page) : Prop :=
  (contentVisible p = true -> showSidebar p = true) /\
  (timer p = true -> showSidebar p = true /\ contentVisible p = false) /\
  (showSidebar p = true -> timer p = true \/ contentVisible p = true) /\
  (showSidebar p = false -> car (showroom p) = None).

End Static.
End Showroom.

(* ===================================================================== *)
(** ** components/ai/BouncingDots.tsx                                      *)
(* ===================================================================== *)

Module Dots.





End Dots.

(* ===================================================================== *)
(** * Properties                                                           *)
(* ===================================================================== *)

(** ** helpers/audio.ts: the average volume                                *)

Section Loops.
Import JS.

(** A loop over a suffix of the array adds the sum of that suffix. *)
Lemma for_loop_sum (done rest : Uint8Array) (values : Z) :
  for_loop (length rest) (length done)
    (fun i values => values + int32_at (done ++ rest) i) values
  = values + Audio.sum_of_elements rest.
Proof.
  revert done values.
  induction rest as [|b rest IH]; intros done values; simpl.
  - unfold Audio.sum_of_elements. simpl. lia.
  - replace (int32_at (done ++ b :: rest) (length done)) with (u8 b).
    + replace (done ++ b :: rest) with ((done ++ [b]) ++ rest)
        by (rewrite <- app_assoc; reflexivity).
      replace (Datatypes.S (length done)) with (length (done ++ [b]))
        by (rewrite length_app; simpl; lia).
      rewrite IH. unfold Audio.sum_of_elements. rewrite fmap_cons. cbn [foldr]. lia.
    + unfold int32_at. rewrite lookup_app_r by lia.
      replace (length done - length done)%nat with 0%nat by lia. reflexivity.
Qed.

End Loops.

(** C10. [getAverageVolume] returns NaN for the empty array, the division
    by the length being unguarded, and the arithmetic mean (the sum of
    the elements divided by the length) for every non-empty array. *)
Theorem getAverageVolume_mean :
  Audio.getAverageVolume [] = JS.NaN /\
  forall array : JS.Uint8Array,
    array <> [] ->
    Audio.getAverageVolume array = JS.Num (Audio.arithmetic_mean array).
Proof.
  split; [reflexivity|].
  intros array Hne. unfold Audio.getAverageVolume, Audio.arithmetic_mean.
  pose proof (for_loop_sum [] array 0) as H. simpl in H. rewrite H.
  unfold JS.div.
  destruct array as [|b array]; [congruence|].
  replace (Z.of_nat (length (b :: array)) =? 0) with false
    by (symmetry; apply Z.eqb_neq; simpl length; lia).
  reflexivity.
Qed.

Lemma getAverageVolume_mean_witness :
  [x01; x02; xff]%byte <> [] /\
  Audio.getAverageVolume [x01; x02; xff]%byte
  = JS.Num (Audio.arithmetic_mean [x01; x02; xff]%byte).
Proof.
  split; [discriminate|].
  apply (proj2 getAverageVolume_mean). discriminate.
Defined.

(** ** VoiceInteraction.tsx: decoding and queueing a chunk                 *)

Section Decoding.
Import JS Voice.

Lemma u8_range (b : byte) : 0 <= u8 b < 256.
Proof.
  unfold u8. pose proof (Byte.to_N_bounded b) as H. lia.
Qed.

(** Bits that do not meet: [lo | (hi << 8)] is [lo + 256 * hi]. *)
Lemma lor_shiftl_8 (lo hi : Z) :
  0 <= lo < 256 -> 0 <= hi -> Z.lor lo (Z.shiftl hi 8) = lo + 256 * hi.
Proof.
  intros Hlo Hhi. rewrite Z.shiftl_mul_pow2 by lia.
  assert (Hland : Z.land lo (hi * 2 ^ 8) = 0).
  { apply Z.bits_inj'. intros k Hk. rewrite Z.land_spec, Z.bits_0.
    destruct (Z.ltb_spec k 8) as [Hlt|Hge].
    - rewrite Z.mul_pow2_bits_low by lia. apply andb_false_r.
    - replace (Z.testbit lo k) with false; [reflexivity|].
      symmetry. destruct (Z.eq_dec lo 0) as [->|Hnz]; [apply Z.bits_0|].
      apply Z.bits_above_log2; [lia|].
      assert (Z.log2 lo < 8) by (apply Z.log2_lt_pow2; lia). lia. }
  rewrite <- Z.lxor_lor by exact Hland.
  rewrite <- Z.add_nocarry_lxor by exact Hland. lia.
Qed.

(** The loop writes [f i] at every index it visits that lies inside the
    array and leaves the rest alone. *)
Lemma for_loop_insert (f : nat -> Q) (k : nat) :
  forall (j : nat) (channel : list Q),
    let result :=
      for_loop k j (fun i channelData => <[i := f i]> channelData) channel in
    length result = length channel /\
    forall i : nat,
      result !! i =
        if decide (j <= i < j + k)%nat
        then (fun _ => f i) <$> channel !! i
        else channel !! i.
Proof.
  induction k as [|k IH]; intros j channel; simpl.
  - split; [reflexivity|]. intros i. destruct (decide _); [lia|reflexivity].
  - destruct (IH (S j) (<[j := f j]> channel)) as [Hlen Hget].
    split; [rewrite Hlen; apply length_insert|].
    intros i. rewrite Hget.
    destruct (decide (S j <= i < S j + k)%nat) as [Hin|Hout].
    + rewrite list_lookup_insert_ne by lia.
      destruct (decide _); [reflexivity|lia].
    + destruct (decide (i = j)) as [->|Hne].
      * destruct (decide _); [|lia].
        destruct (decide (j < length channel)%nat) as [Hj|Hj].
        -- rewrite list_lookup_insert_eq by exact Hj.
           destruct (lookup_lt_is_Some_2 channel j Hj) as [x ->]. reflexivity.
        -- rewrite list_insert_ge by lia.
           rewrite (lookup_ge_None_2 channel j) by lia. reflexivity.
      * rewrite list_lookup_insert_ne by lia.
        destruct (decide _); [lia|reflexivity].
Qed.

Lemma totalSamples_even (pcmData : Uint8Array) (n : nat) :
  length pcmData = (2 * n)%nat ->
  (totalSamples pcmData == inject_Z (Z.of_nat n))%Q.
Proof.
  intros Hlen. unfold totalSamples, bytesPerSample. rewrite Hlen.
  unfold Qeq, Qdiv, Qmult, Qinv, inject_Z. simpl. lia.
Qed.

(** The sample the loop computes from an in-range pair of bytes. *)
Lemma decode_sample_pair (pcmData : Uint8Array) (i : nat) (lo hi : byte) :
  pcmData !! (2 * i)%nat = Some lo ->
  pcmData !! (2 * i + 1)%nat = Some hi ->
  decode_sample pcmData i = (inject_Z (signed_int16_le lo hi) / 32768)%Q.
Proof.
  intros Hlo Hhi. unfold decode_sample, int32_at, bytesPerSample.
  replace (i * Z.to_nat 2)%nat with (2 * i)%nat by lia.
  rewrite Hlo, Hhi.
  pose proof (u8_range lo) as Rlo. pose proof (u8_range hi) as Rhi.
  rewrite lor_shiftl_8 by lia.
  unfold signed_int16_le.
  change 0x8000 with 32768. change 0x10000 with 65536.
  destruct (Z.leb_spec 32768 (u8 lo + 256 * u8 hi)) as [Hneg|Hpos].
  - replace ((u8 lo + 256 * u8 hi + 32768) mod 65536)
      with (u8 lo + 256 * u8 hi - 32768); [f_equal; f_equal; lia|].
    apply Z.mod_unique with (q := 1); lia.
  - rewrite Z.mod_small by lia. f_equal. f_equal. lia.
Qed.

Lemma signed_int16_le_range (lo hi : byte) :
  -32768 <= signed_int16_le lo hi < 32768.
Proof.
  unfold signed_int16_le.
  pose proof (Z.mod_pos_bound (u8 lo + 256 * u8 hi + 32768) 65536). lia.
Qed.

Lemma sample_range (z : Z) :
  -32768 <= z < 32768 ->
  (-1 <= inject_Z z / 32768 /\ inject_Z z / 32768 < 1)%Q.
Proof.
  intros Hz. unfold Qle, Qlt, Qdiv, Qmult, Qinv, inject_Z. simpl. lia.
Qed.

End Decoding.

Section Queue.
Import JS Voice.

(** The number of frames [createBuffer] is asked for. *)
Lemma frames_half (pcmData : Uint8Array) :
  Z.to_nat (Qfloor (totalSamples pcmData)) = (length pcmData / 2)%nat.
Proof.
  unfold totalSamples, bytesPerSample, Qdiv, Qmult, Qinv, inject_Z, Qfloor.
  simpl Qnum. simpl Qden. rewrite Z.mul_1_r.
  change (Z.pos (1 * 2)) with (Z.of_nat 2).
  rewrite <- Nat2Z.inj_div. apply Nat2Z.id.
Qed.

Lemma iterations_even (pcmData : Uint8Array) (n : nat) :
  length pcmData = (2 * n)%nat ->
  Z.to_nat (Qceiling (totalSamples pcmData)) = n.
Proof.
  intros Hlen. rewrite (Qceiling_comp _ _ (totalSamples_even pcmData n Hlen)).
  rewrite Qceiling_Z. apply Nat2Z.id.
Qed.

(** A call with an audio context and at least two bytes starts exactly
    one source; this is the state it returns. *)
Lemma queueAudioChunk_starts (currentTime : Q) (pcmData : Uint8Array)
    (st : state) :
  audioContextRef st = true ->
  (2 <= length pcmData)%nat ->
  let src :=
    {| buffer :=
         {| channelData :=
              decode pcmData (replicate (length pcmData / 2) 0%Q);
            bufferRate := sampleRate |};
       when := if Qlt_le_dec (audioStartTimeRef st) currentTime
               then currentTime else audioStartTimeRef st |} in
  exists st' : state,
    queueAudioChunk currentTime pcmData st = Normal st' /\
    started st' = started st ++ [src] /\
    audioStartTimeRef st' = scheduled_end src /\
    numSourcesPlaying st' = numSourcesPlaying st + 1 /\
    audioContextRef st' = true /\
    allowRecordingRef st' = allowRecordingRef st /\
    isRecording st' = isRecording st /\
    receivedMessage st' = receivedMessage st /\
    console st' = console st.
Proof.
  intros Hctx Hlen src. unfold queueAudioChunk. rewrite Hctx. simpl negb.
  cbv iota.
  destruct (Nat.eqb_spec (length pcmData) 0) as [H0|_]; [lia|].
  unfold createBuffer. rewrite frames_half.
  assert (Hpos : (length pcmData / 2)%nat <> 0%nat).
  { intros Hz. apply Nat.div_small_iff in Hz; lia. }
  destruct (Nat.eqb_spec (length pcmData / 2) 0) as [Hz|_]; [contradiction|].
  eexists. split; [reflexivity|].
  subst src. unfold scheduled_end.
  destruct (analyserNodeRef st); cbn -[decode Nat.div];
    destruct (Qlt_le_dec (audioStartTimeRef st) currentTime);
    cbn -[decode Nat.div]; repeat split; try reflexivity; exact Hctx.
Qed.

(** Without an audio context, or with no bytes, a call returns at once. *)
Lemma queueAudioChunk_returns (currentTime : Q) (pcmData : Uint8Array)
    (st : state) :
  audioContextRef st = false \/ pcmData = [] ->
  queueAudioChunk currentTime pcmData st = Normal st.
Proof.
  intros [Hctx| ->]; unfold queueAudioChunk.
  - rewrite Hctx. reflexivity.
  - destruct (audioContextRef st); reflexivity.
Qed.

(** A single byte: [createBuffer] refuses the length 0. *)
Lemma queueAudioChunk_throws (currentTime : Q) (b : byte) (st : state) :
  audioContextRef st = true ->
  queueAudioChunk currentTime [b] st = Throws "NotSupportedError" st.
Proof.
  intros Hctx. unfold queueAudioChunk. rewrite Hctx. reflexivity.
Qed.

End Queue.

(** C9. For a byte array of even length 2n, [queueAudioChunk] (with its
    audio context in place) decodes exactly n samples; sample i is the
    signed little-endian 16-bit integer formed from bytes 2i and 2i+1,
    divided by 32768, and lies in the half-open interval from -1 to 1. *)
Theorem queueAudioChunk_decodes (currentTime : Q) (pcmData : JS.Uint8Array)
    (n : nat) (st : Voice.state) :
  Voice.audioContextRef st = true ->
  length pcmData = (2 * n)%nat ->
  let samples :=
    Voice.decoded st (Voice.queueAudioChunk currentTime pcmData st) in
  length samples = n /\
  forall i : nat,
    (i < n)%nat ->
    exists (lo hi : byte) (sample : Q),
      pcmData !! (2 * i)%nat = Some lo /\
      pcmData !! (2 * i + 1)%nat = Some hi /\
      samples !! i = Some sample /\
      sample = (inject_Z (Voice.signed_int16_le lo hi) / 32768)%Q /\
      (-1 <= sample)%Q /\ (sample < 1)%Q.
Proof.
  intros Hctx Hlen samples. subst samples. unfold Voice.decoded.
  destruct n as [|n].
  - destruct pcmData; [|discriminate].
    rewrite queueAudioChunk_returns by (right; reflexivity).
    simpl. rewrite drop_all. split; [reflexivity|]. intros i Hi. lia.
  - destruct (queueAudioChunk_starts currentTime pcmData st Hctx ltac:(lia))
      as (st' & -> & Hstarted & _).
    cbn [JS.state_after]. rewrite Hstarted, drop_app_length.
    cbn [map concat Voice.buffer Voice.channelData].
    rewrite app_nil_r. unfold Voice.decode.
    rewrite (iterations_even pcmData (S n) Hlen).
    replace (length pcmData / 2)%nat with (S n)
      by (rewrite Hlen; symmetry; rewrite Nat.mul_comm; apply Nat.div_mul; lia).
    destruct (for_loop_insert (Voice.decode_sample pcmData) (S n) 0
                (replicate (S n) 0%Q)) as [Hlength Hget].
    split; [rewrite Hlength; apply length_replicate|].
    intros i Hi.
    destruct (lookup_lt_is_Some_2 pcmData (2 * i)) as [lo Hlo]; [lia|].
    destruct (lookup_lt_is_Some_2 pcmData (2 * i + 1)) as [hi Hhi]; [lia|].
    exists lo, hi, (Voice.decode_sample pcmData i).
    split; [exact Hlo|]. split; [exact Hhi|].
    split.
    { rewrite Hget. destruct (decide _); [|lia].
      rewrite lookup_replicate_2 by lia. reflexivity. }
    rewrite (decode_sample_pair pcmData i lo hi Hlo Hhi).
    split; [reflexivity|].
    apply sample_range, signed_int16_le_range.
Qed.

Lemma queueAudioChunk_decodes_witness :
  let pcmData := [x00; x80; xff; x7f]%byte in
  let samples :=
    Voice.decoded (Voice.mount Voice.initial)
      (Voice.queueAudioChunk 0 pcmData (Voice.mount Voice.initial)) in
  length samples = 2%nat /\
  forall i : nat,
    (i < 2)%nat ->
    exists (lo hi : byte) (sample : Q),
      pcmData !! (2 * i)%nat = Some lo /\
      pcmData !! (2 * i + 1)%nat = Some hi /\
      samples !! i = Some sample /\
      sample = (inject_Z (Voice.signed_int16_le lo hi) / 32768)%Q /\
      (-1 <= sample)%Q /\ (sample < 1)%Q.
Proof.
  apply (queueAudioChunk_decodes 0 [x00; x80; xff; x7f]%byte 2
           (Voice.mount Voice.initial)); reflexivity.
Defined.

(** ** VoiceInteraction.tsx: the playback schedule                         *)

Section Schedule.
Import JS Voice.

Lemma duration_nonneg (samples : list Q) :
  (0 <= duration {| channelData := samples; bufferRate := sampleRate |})%Q.
Proof.
  unfold duration, sampleRate, Qle, Qdiv, Qmult, Qinv, inject_Z. simpl. lia.
Qed.

Lemma end_before_app (i : nat) (sources : list source) (s : source) :
  (i <= length sources)%nat ->
  end_before i (sources ++ [s]) = end_before i sources.
Proof.
  intros Hi. destruct i as [|j]; [reflexivity|]. simpl.
  rewrite lookup_app_l by lia. reflexivity.
Qed.

Lemma end_before_last (sources : list source) (s : source) :
  end_before (length (sources ++ [s])) (sources ++ [s]) = scheduled_end s.
Proof.
  rewrite length_app. simpl length.
  replace (length sources + 1)%nat with (S (length sources)) by lia.
  simpl. rewrite lookup_app_r by lia.
  replace (length sources - length sources)%nat with 0%nat by lia.
  reflexivity.
Qed.

(** A call that carries less than one whole sample leaves the state as
    it is. *)
Lemma queueAudioChunk_short (currentTime : Q) (pcmData : Uint8Array)
    (st : state) :
  audioContextRef st = true ->
  (length pcmData < 2)%nat ->
  state_after (queueAudioChunk currentTime pcmData st) = st.
Proof.
  intros Hctx Hlen. destruct pcmData as [|b [|c rest]]; [| |simpl in Hlen; lia].
  - rewrite queueAudioChunk_returns by (right; reflexivity). reflexivity.
  - rewrite queueAudioChunk_throws by exact Hctx. reflexivity.
Qed.

Lemma scheduled_as_app (sources : list source) (s : source) (i : nat)
    (call : Q * Uint8Array) (src : source) :
  (i < length sources)%nat ->
  scheduled_as sources i call src ->
  scheduled_as (sources ++ [s]) i call src.
Proof.
  intros Hi (Hdata & Hlater & Hnow & Hprev & Hgap & Hearlier).
  unfold scheduled_as. rewrite end_before_app by lia.
  repeat split; try assumption.
  intros j earlier Hj Hget. apply (Hearlier j earlier Hj).
  rewrite lookup_app_l in Hget by lia. exact Hget.
Qed.

Lemma schedule_invariant_step (calls : list (Q * Uint8Array))
    (call : Q * Uint8Array) (st : state) :
  schedule_invariant calls st ->
  schedule_invariant (calls ++ [call])
    (state_after (queueAudioChunk call.1 call.2 st)).
Proof.
  intros (Hctx & Hend & Hlen & Hbound & Hall).
  unfold schedule_invariant, playable. rewrite filter_app.
  destruct (decide (2 <= length call.2)%nat) as [Hplay|Hshort].
  - rewrite (filter_cons_True _ call []) by exact Hplay.
    rewrite filter_nil.
    destruct (queueAudioChunk_starts call.1 call.2 st Hctx Hplay)
      as (st' & -> & Hstarted & Hstart & _ & Hctx' & _).
    cbn [state_after]. rewrite Hstarted, Hstart.
    set (src := {| buffer := _; when := _ |}) in *.
    assert (Hwhen_prev : (audioStartTimeRef st <= when src)%Q).
    { subst src. cbn [when]. destruct (Qlt_le_dec _ _); lra. }
    assert (Hdur : (when src <= scheduled_end src)%Q).
    { unfold scheduled_end. subst src. cbn [buffer].
      pose proof (duration_nonneg
        (decode call.2 (replicate (length call.2 / 2) 0%Q))). lra. }
    split; [exact Hctx'|]. split; [symmetry; apply end_before_last|].
    split; [rewrite !length_app; simpl; fold (playable calls); lia|].
    split.
    + intros j earlier Hget.
      destruct (decide (j < length (started st))%nat) as [Hj|Hj].
      * rewrite lookup_app_l in Hget by exact Hj.
        pose proof (Hbound j earlier Hget). lra.
      * rewrite lookup_app_r in Hget by lia.
        destruct (j - length (started st))%nat; [|discriminate].
        injection Hget as <-. lra.
    + intros i c Hget. fold (playable calls) in Hget.
      destruct (decide (i < length (playable calls))%nat) as [Hi|Hi].
      * rewrite lookup_app_l in Hget by exact Hi.
        destruct (Hall i c Hget) as (s & Hs & Has).
        exists s. split; [rewrite lookup_app_l by lia; exact Hs|].
        apply scheduled_as_app; [lia|exact Has].
      * rewrite lookup_app_r in Hget by lia.
        destruct (i - length (playable calls))%nat eqn:Hdiff; [|discriminate].
        injection Hget as <-.
        assert (i = length (started st)) as -> by lia.
        exists src. split.
        { rewrite lookup_app_r by lia.
          replace (length (started st) - length (started st))%nat
            with 0%nat by lia. reflexivity. }
        unfold scheduled_as. rewrite end_before_app by lia. rewrite <- Hend.
        split; [reflexivity|].
        split; [subst src; cbn [when]; destruct (Qlt_le_dec _ _); auto|].
        split; [subst src; cbn [when]; destruct (Qlt_le_dec _ _); lra|].
        split; [exact Hwhen_prev|].
        split; [subst src; cbn [when]; destruct (Qlt_le_dec _ _);
                [intros; lra|reflexivity]|].
        intros j earlier Hj Hearlier.
        rewrite lookup_app_l in Hearlier by exact Hj.
        pose proof (Hbound j earlier Hearlier). lra.
  - rewrite (filter_cons_False _ call []) by exact Hshort.
    rewrite filter_nil, app_nil_r. fold (playable calls).
    rewrite queueAudioChunk_short by (try exact Hctx; lia).
    repeat split; assumption.
Qed.

Lemma schedule_invariant_run (calls : list (Q * Uint8Array)) :
  schedule_invariant calls (queueAudioChunks calls (mount initial)).
Proof.
  induction calls as [|call calls IH] using rev_ind.
  - repeat split; try reflexivity.
    + intros j earlier Hget. discriminate.
    + intros i call Hget. discriminate.
  - unfold queueAudioChunks. rewrite foldl_app. simpl foldl.
    apply schedule_invariant_step. exact IH.
Qed.

End Schedule.

(** C8. After any sequence of calls of [queueAudioChunk], the sources
    started are those of the calls that carry a sample, in the order of
    arrival; chunk i starts at the later of the clock reading of its
    call and the scheduled end of chunk i-1, so it starts no earlier than
    any earlier chunk ends, and it starts exactly at the end of chunk
    i-1 whenever that end has not passed. *)
Theorem playback_schedule (calls : list (Q * JS.Uint8Array)) :
  let st := Voice.queueAudioChunks calls (Voice.mount Voice.initial) in
  length (Voice.started st) = length (Voice.playable calls) /\
  forall (i : nat) (currentTime : Q) (pcmData : JS.Uint8Array),
    Voice.playable calls !! i = Some (currentTime, pcmData) ->
    exists src : Voice.source,
      let previous_end := Voice.end_before i (Voice.started st) in
      Voice.started st !! i = Some src /\
      Voice.channelData (Voice.buffer src)
        = Voice.decode pcmData (replicate (length pcmData / 2) 0%Q) /\
      (Voice.when src = currentTime \/ Voice.when src = previous_end) /\
      (currentTime <= Voice.when src)%Q /\
      (previous_end <= Voice.when src)%Q /\
      ((currentTime <= previous_end)%Q -> Voice.when src = previous_end) /\
      forall (j : nat) (earlier : Voice.source),
        (j < i)%nat ->
        Voice.started st !! j = Some earlier ->
        (Voice.scheduled_end earlier <= Voice.when src)%Q.
Proof.
  intros st. destruct (schedule_invariant_run calls) as (_ & _ & Hlen & _ & Hall).
  split; [exact Hlen|].
  intros i currentTime pcmData Hget.
  destruct (Hall i (currentTime, pcmData) Hget) as (src & Hsrc & Has).
  exists src. split; [exact Hsrc|]. exact Has.
Qed.

Lemma playback_schedule_witness :
  let calls := [(0%Q, [x00; x80; xff; x7f]%byte);
                ((1 # 48000)%Q, [x01; x00]%byte)] in
  let st := Voice.queueAudioChunks calls (Voice.mount Voice.initial) in
  exists src : Voice.source,
    let previous_end := Voice.end_before 1 (Voice.started st) in
    Voice.started st !! 1%nat = Some src /\
    Voice.channelData (Voice.buffer src)
      = Voice.decode [x01; x00]%byte (replicate 1 0%Q) /\
    (Voice.when src = (1 # 48000)%Q \/ Voice.when src = previous_end) /\
    ((1 # 48000) <= Voice.when src)%Q /\
    (previous_end <= Voice.when src)%Q /\
    (((1 # 48000) <= previous_end)%Q -> Voice.when src = previous_end) /\
    forall (j : nat) (earlier : Voice.source),
      (j < 1)%nat ->
      Voice.started st !! j = Some earlier ->
      (Voice.scheduled_end earlier <= Voice.when src)%Q.
Proof.
  apply (proj2 (playback_schedule
                  [(0%Q, [x00; x80; xff; x7f]%byte);
                   ((1 # 48000)%Q, [x01; x00]%byte)])
           1%nat (1 # 48000)%Q [x01; x00]%byte).
  reflexivity.
Defined.

(** ** VoiceInteraction.tsx and audioStream.ts: the frames received *)

Section Frames.
Import JS AudioStream Voice.

Lemma parse_END_OF_DIALOG_STEP :
  JSON_parse (object_text [("type", "END_OF_DIALOG_STEP")])
  = Some (JObject [("type", JString "END_OF_DIALOG_STEP")]).
Proof. vm_compute. reflexivity. Qed.

Lemma parse_text_chunk :
  JSON_parse (object_text [("type", "text_chunk"); ("content", "This ")])
  = Some (JObject [("type", JString "text_chunk");
                   ("content", JString "This ")]).
Proof. vm_compute. reflexivity. Qed.

(** [JSON.parse] on a few texts: white space and nesting, a key written
    with an escape, the literal [null], and texts that are not JSON. *)
Example parse_show_image :
  JSON_parse (" { " +:+ quoted "\u0074ype" +:+ " : " +:+ quoted "show_image"
              +:+ ", " +:+ quoted "colorOptions" +:+ ": [1, -2.5e+3, true, {}] } ")
  = Some (JObject [("type", JString "show_image");
                   ("colorOptions",
                    JArray [JNumber "1"; JNumber "-2.5e+3"; JBool true;
                            JObject []])]).
Proof. vm_compute. reflexivity. Qed.

Example parse_null : JSON_parse "null" = Some JNull.
Proof. vm_compute. reflexivity. Qed.

Example parse_not_json :
  JSON_parse "start" = None /\ JSON_parse "[1,]" = None /\
  JSON_parse "01" = None /\ JSON_parse "" = None.
Proof. vm_compute. repeat split. Qed.

(** A text frame never throws, and what it leaves behind depends on the
    parsed [type] alone. *)
Lemma onmessage_text (data : string) (currentTime : Q) (st : state) :
  exists st' : state,
    onmessage (Text data) currentTime st = Normal st' /\
    isRecording st' = isRecording st /\
    reasoning st' = reasoning st /\
    aiStatusMessage st' = aiStatusMessage st /\
    audioContextRef st' = audioContextRef st /\
    analyserNodeRef st' = analyserNodeRef st /\
    audioStartTimeRef st' = audioStartTimeRef st /\
    allowRecordingRef st' = allowRecordingRef st /\
    numSourcesPlaying st' = numSourcesPlaying st /\
    started st' = started st.
Proof.
  eexists. split; [reflexivity|].
  destruct (JSON_parse data) as [jsonObj|]; [|repeat split; reflexivity].
  destruct (get_type jsonObj) as [v| |]; cbv zeta;
    try (repeat split; reflexivity).
  destruct (strict_eq (Value v) "END_OF_STREAM");
    [repeat split; reflexivity|].
  destruct (strict_eq (Value v) "show_image"); repeat split; reflexivity.
Qed.

(** A parsed frame whose [type] is neither of the two strings the
    handler compares with changes nothing, not even the console. *)
Lemma onmessage_other_type (data : string) (jsonObj : json)
    (currentTime : Q) (st : state) :
  JSON_parse data = Some jsonObj ->
  get_type jsonObj <> TypeError ->
  strict_eq (get_type jsonObj) "END_OF_STREAM" = false ->
  strict_eq (get_type jsonObj) "show_image" = false ->
  onmessage (Text data) currentTime st = Normal st.
Proof.
  intros Hparse Hnot Hend Hshow. unfold onmessage. rewrite Hparse.
  destruct (get_type jsonObj) as [v| |]; [| |congruence].
  - rewrite Hend, Hshow. reflexivity.
  - reflexivity.
Qed.

End Frames.

(** C1. The frame [{"type":"END_OF_DIALOG_STEP"}] is not recognised: the
    handler of VoiceInteraction returns the state it was given, the
    handler of [getAudioStream] calls nothing, and after a recording was
    submitted the frame does not make the space bar record again. *)
Theorem END_OF_DIALOG_STEP_not_recognised :
  (forall (currentTime : Q) (st : Voice.state),
     Voice.onmessage AudioStream.END_OF_DIALOG_STEP currentTime st
     = JS.Normal st) /\
  (forall has_onStreamEnd : bool,
     AudioStream.onmessage has_onStreamEnd AudioStream.END_OF_DIALOG_STEP
     = []) /\
  forall (API_URL : string) (localStorage : gmap string string),
    let st :=
      Voice.run API_URL localStorage
        [Voice.KeyDown "Space"; Voice.KeyUp "Space";
         Voice.Message AudioStream.END_OF_DIALOG_STEP 0;
         Voice.KeyDown "Space"]
        (Voice.mount Voice.initial) in
    Voice.allowRecordingRef st = false /\ Voice.isRecording st = false.
Proof.
  split; [|split].
  - intros currentTime st.
    apply (onmessage_other_type _ _ _ _ parse_END_OF_DIALOG_STEP);
      [discriminate|reflexivity|reflexivity].
  - intros has. unfold AudioStream.onmessage, AudioStream.END_OF_DIALOG_STEP.
    rewrite parse_END_OF_DIALOG_STEP. reflexivity.
  - intros API_URL localStorage. vm_compute. split; reflexivity.
Qed.




(** C5, as stated, fails: a text chunk has neither reserved type, and
    the handler does not pass it on. *)
Lemma text_chunk_not_forwarded :
  ~ (forall (data : string) (jsonObj : JS.json) (type : string)
       (currentTime : Q) (st : Voice.state),
       JS.JSON_parse data = Some jsonObj ->
       JS.get_type jsonObj = JS.Value (JS.JString type) ->
       type <> "end_of_response" -> type <> "END_OF_DIALOG_STEP" ->
       Voice.receivedMessage
         (JS.state_after
            (Voice.onmessage (AudioStream.Text data) currentTime st))
       = data).
Proof.
  intros H.
  specialize (H _ _ "text_chunk" 0%Q (Voice.mount Voice.initial)
                parse_text_chunk eq_refl).
  assert (Hne1 : "text_chunk" <> "end_of_response") by discriminate.
  assert (Hne2 : "text_chunk" <> "END_OF_DIALOG_STEP") by discriminate.
  specialize (H Hne1 Hne2). vm_compute in H. discriminate.
Qed.

(** C5, amended. A JSON frame whose [type] is [show_image] is passed on
    unmodified: the received message becomes the text of the frame,
    byte for byte. A JSON frame with any other [type] is not passed on:
    the received message stays what it was. *)
Theorem show_image_forwarded (data : string) (jsonObj : JS.json)
    (type : string) (currentTime : Q) (st : Voice.state) :
  JS.JSON_parse data = Some jsonObj ->
  JS.get_type jsonObj = JS.Value (JS.JString type) ->
  Voice.receivedMessage
    (JS.state_after (Voice.onmessage (AudioStream.Text data) currentTime st))
  = if String.eqb type "show_image" then data else Voice.receivedMessage st.
Proof.
  intros Hparse Htype. unfold Voice.onmessage. rewrite Hparse, Htype.
  cbn [JS.strict_eq JS.state_after].
  destruct (String.eqb_spec type "END_OF_STREAM") as [->|_]; [reflexivity|].
  destruct (String.eqb type "show_image"); reflexivity.
Qed.

Lemma show_image_forwarded_witness :
  Voice.receivedMessage
    (JS.state_after
       (Voice.onmessage
          (AudioStream.Text
             (AudioStream.object_text
                [("type", "show_image"); ("image", "audi_q6_interior.jpg")]))
          0 (Voice.mount Voice.initial)))
  = AudioStream.object_text
      [("type", "show_image"); ("image", "audi_q6_interior.jpg")].
Proof.
  apply (show_image_forwarded _
           (JS.JObject [("type", JS.JString "show_image");
                        ("image", JS.JString "audi_q6_interior.jpg")])
           "show_image" 0 (Voice.mount Voice.initial)).
  - vm_compute. reflexivity.
  - reflexivity.
Defined.

(** ** audioStream.ts and VoiceInteraction.tsx: uploads and the space bar *)

Section Upload.
Import JS AudioStream.

(** How [sendAudioBlob] settles, by the outcome of the POST. *)
Lemma sendAudioBlob_settles (API_URL : string)
    (axios_post : request -> settled Response)
    (localStorage : gmap string string) (blob : Blob) :
  sendAudioBlob API_URL axios_post localStorage blob
  = match axios_post {| target := API_URL +:+ "/receive_audio_blob";
                        authorization := bearer localStorage;
                        file := blob |} with
    | Fulfilled response => (Fulfilled (Some response), [])
    | Rejected error =>
        (Fulfilled None, [console_error "Error sending audio blob: " [error]])
    end.
Proof.
  unfold sendAudioBlob, try_catch, await, resolve, print.
  destruct (axios_post _); reflexivity.
Qed.

(** C6, as stated, fails: when the POST is rejected, the promise of
    [sendAudioBlob] is neither rejected nor fulfilled with a value that
    carries the failure; it is fulfilled with [undefined]. *)
Lemma failed_upload_not_rejected :
  ~ (forall (API_URL : string) (localStorage : gmap string string)
       (blob : Blob) (error : string),
       let promise :=
         (sendAudioBlob API_URL (fun _ => Rejected error) localStorage blob).1
       in
       (exists reason : string, promise = Rejected reason) \/
       (exists value : Response, promise = Fulfilled (Some value))).
Proof.
  intros H.
  destruct (H "http://localhost:8000" ∅ [] "Network Error")
    as [[reason Hr]|[value Hv]]; discriminate.
Qed.

(** C6, amended. [sendAudioBlob] never rejects: its promise is always
    fulfilled. When the POST fails, the error is printed to the console
    and the promise is fulfilled with [undefined]; when the POST
    succeeds, the promise is fulfilled with the response and nothing is
    printed. *)
Theorem sendAudioBlob_never_rejects (API_URL : string)
    (axios_post : request -> settled Response)
    (localStorage : gmap string string) (blob : Blob) :
  exists (value : option Response) (printed : list console_call),
    sendAudioBlob API_URL axios_post localStorage blob
    = (Fulfilled value, printed) /\
    match axios_post {| target := API_URL +:+ "/receive_audio_blob";
                        authorization := bearer localStorage;
                        file := blob |} with
    | Fulfilled response => value = Some response /\ printed = []
    | Rejected error =>
        value = None /\
        printed = [console_error "Error sending audio blob: " [error]]
    end.
Proof.
  rewrite sendAudioBlob_settles.
  destruct (axios_post _) as [response|error]; eexists _, _; repeat split.
Qed.

(** Whatever the network does, [onStop] ends the recording. *)
Lemma onStop_resets (API_URL : string) (localStorage : gmap string string)
    (axios_post : request -> settled Response) (blob : Blob)
    (st : Voice.state) :
  let st' := Voice.onStop API_URL localStorage axios_post blob st in
  Voice.isRecording st' = false /\
  Voice.allowRecordingRef st' = Voice.allowRecordingRef st /\
  Voice.started st' = Voice.started st /\
  Voice.numSourcesPlaying st' = Voice.numSourcesPlaying st.
Proof.
  unfold Voice.onStop, Voice.sendAudio.
  rewrite sendAudioBlob_settles.
  destruct (axios_post _); repeat split; reflexivity.
Qed.

End Upload.

Section Keys.
Import JS AudioStream Voice.
Variable API_URL : string.
Variable localStorage : gmap string string.

(** [queueAudioChunk] leaves the recording state alone, however it
    completes. *)
Lemma queueAudioChunk_keeps (currentTime : Q) (pcmData : Uint8Array)
    (st : state) :
  let st' := state_after (queueAudioChunk currentTime pcmData st) in
  allowRecordingRef st' = allowRecordingRef st /\
  isRecording st' = isRecording st.
Proof.
  destruct (audioContextRef st) eqn:Hctx.
  - destruct (decide (2 <= length pcmData)%nat) as [Hlen|Hlen].
    + destruct (queueAudioChunk_starts currentTime pcmData st Hctx Hlen)
        as (st' & -> & _ & _ & _ & _ & Hallow & Hrec & _).
      split; assumption.
    + cbv zeta. rewrite queueAudioChunk_short by (try exact Hctx; lia).
      split; reflexivity.
  - cbv zeta. rewrite queueAudioChunk_returns by (left; exact Hctx).
    split; reflexivity.
Qed.

(** While recording is not allowed, only the end of the last source
    playing can allow it again. *)
Lemma step_keeps_blocked (e : event) (st : state) :
  playback_goes_on API_URL localStorage [e] st = true ->
  allowRecordingRef st = false ->
  isRecording st = false ->
  allowRecordingRef (step API_URL localStorage e st) = false /\
  isRecording (step API_URL localStorage e st) = false.
Proof.
  intros Hon Hallow Hrec.
  destruct e as [code|code|event_data currentTime| |blob post| |error];
    cbn [step].
  - unfold handleKeyDown. rewrite Hallow, andb_false_r. split; assumption.
  - unfold handleKeyUp. rewrite Hallow, andb_false_r. split; assumption.
  - destruct event_data as [bytes|data].
    + destruct (queueAudioChunk_keeps currentTime bytes st) as [Ha Hr].
      cbn [onmessage]. split; congruence.
    + destruct (onmessage_text data currentTime st)
        as (st' & -> & Hr & _ & _ & _ & _ & _ & Ha & _).
      cbn [state_after]. split; congruence.
  - cbn [playback_goes_on] in Hon. rewrite andb_true_r in Hon.
    apply negb_true_iff, Z.eqb_neq in Hon.
    unfold onended.
    cbn [numSourcesPlaying set_numSourcesPlaying print].
    destruct (Z.eqb_spec (numSourcesPlaying st - 1) 0) as [Hz|_]; [lia|].
    split; assumption.
  - destruct (onStop_resets API_URL localStorage post blob st)
      as (Hr & Ha & _).
    split; congruence.
  - split; assumption.
  - split; assumption.
Qed.

Lemma run_keeps_blocked (events : list event) (st : state) :
  playback_goes_on API_URL localStorage events st = true ->
  allowRecordingRef st = false ->
  isRecording st = false ->
  allowRecordingRef (run API_URL localStorage events st) = false /\
  isRecording (run API_URL localStorage events st) = false.
Proof.
  revert st. induction events as [|e events IH]; intros st Hon Hallow Hrec.
  - split; assumption.
  - cbn [playback_goes_on] in Hon. apply andb_prop in Hon as [He Hon].
    assert (Hone : playback_goes_on API_URL localStorage [e] st = true)
      by (cbn [playback_goes_on]; rewrite He; reflexivity).
    destruct (step_keeps_blocked e st Hone Hallow Hrec) as [Ha Hr].
    apply (IH (step API_URL localStorage e st) Hon Ha Hr).
Qed.

(** In a trace of keys, uploads and audio no source ends. *)
Lemma no_source_ends (events : list event) (st : state) :
  keys_uploads_and_audio events = true ->
  playback_goes_on API_URL localStorage events st = true.
Proof.
  revert st. induction events as [|e events IH]; intros st Hev;
    [reflexivity|].
  cbn [keys_uploads_and_audio forallb] in Hev.
  apply andb_prop in Hev as [He Hev].
  cbn [playback_goes_on]. rewrite (IH _ Hev), andb_true_r.
  destruct e as [code|code|event_data currentTime| |blob post| |error];
    (reflexivity || discriminate He).
Qed.

End Keys.

(** C2, as stated, fails: right after a recording has been submitted the
    space bar does not start another one. *)
Lemma submission_blocks_recording :
  ~ (forall (API_URL : string) (localStorage : gmap string string)
       (events : list Voice.event),
       Voice.can_record
         (Voice.run API_URL localStorage events
            (Voice.handleKeyUp "Space"
               (Voice.handleKeyDown "Space" (Voice.mount Voice.initial))))).
Proof.
  intros H. specialize (H "http://localhost:8000" ∅ []).
  vm_compute in H. discriminate.
Qed.

(** C2, amended. The client cannot submit further input at will:
    releasing the space bar while recording submits the recording and
    forbids a new one, and through whatever the user then does (keys
    pressed and released, the upload settling) and through the audio
    that arrives recording stays forbidden and the space bar, pressed
    or released, changes nothing. The client has to wait for a later
    event before it submits again. *)
Theorem submission_blocks_further_input (API_URL : string)
    (localStorage : gmap string string) (st : Voice.state)
    (events : list Voice.event) :
  Voice.isRecording st = true ->
  Voice.allowRecordingRef st = true ->
  Voice.keys_uploads_and_audio events = true ->
  let st' :=
    Voice.run API_URL localStorage events (Voice.handleKeyUp "Space" st) in
  Voice.allowRecordingRef st' = false /\
  ~ Voice.can_record st' /\
  Voice.handleKeyDown "Space" st' = st' /\
  Voice.handleKeyUp "Space" st' = st'.
Proof.
  intros Hrec Hallow Hev st'.
  assert (Hup : Voice.allowRecordingRef (Voice.handleKeyUp "Space" st) = false
                /\ Voice.isRecording (Voice.handleKeyUp "Space" st) = false).
  { unfold Voice.handleKeyUp. rewrite Hrec, Hallow. split; reflexivity. }
  destruct Hup as [Ha Hr].
  pose proof (no_source_ends API_URL localStorage events
                (Voice.handleKeyUp "Space" st) Hev) as Hon.
  destruct (run_keeps_blocked API_URL localStorage events _ Hon Ha Hr)
    as [Ha' Hr'].
  fold st' in Ha', Hr'.
  assert (Hdown : Voice.handleKeyDown "Space" st' = st')
    by (unfold Voice.handleKeyDown; rewrite Ha', andb_false_r; reflexivity).
  split; [exact Ha'|]. split; [|split; [exact Hdown|]].
  - unfold Voice.can_record. rewrite Hdown, Hr'. discriminate.
  - unfold Voice.handleKeyUp. rewrite Ha', andb_false_r. reflexivity.
Qed.

Lemma submission_blocks_further_input_witness :
  let st' :=
    Voice.run "http://localhost:8000" ∅
      [Voice.Stop [] (fun _ => JS.Rejected "Network Error");
       Voice.KeyDown "Space";
       Voice.Message (AudioStream.ArrayBuffer [x00; x80]%byte) 0;
       Voice.KeyUp "Space";
       Voice.Message (AudioStream.ArrayBuffer [xff; x7f]%byte) 0]
      (Voice.handleKeyUp "Space"
         (Voice.handleKeyDown "Space" (Voice.mount Voice.initial))) in
  Voice.allowRecordingRef st' = false /\
  ~ Voice.can_record st' /\
  Voice.handleKeyDown "Space" st' = st' /\
  Voice.handleKeyUp "Space" st' = st'.
Proof.
  apply (submission_blocks_further_input "http://localhost:8000" ∅
           (Voice.handleKeyDown "Space" (Voice.mount Voice.initial))
           [Voice.Stop [] (fun _ => JS.Rejected "Network Error");
            Voice.KeyDown "Space";
            Voice.Message (AudioStream.ArrayBuffer [x00; x80]%byte) 0;
            Voice.KeyUp "Space";
            Voice.Message (AudioStream.ArrayBuffer [xff; x7f]%byte) 0]);
    reflexivity.
Defined.

(** ** Login.tsx, App.tsx and VoiceInteraction.tsx: the streaming channel *)

Section Sockets.
Import Channel.
Variable WEBSOCKET_URL : string.

(** The effect constructs exactly one socket, for the stored session,
    and hands its position to the cleanup. *)
Lemma effect_opens_one (b : browser) :
  effect WEBSOCKET_URL b
  = ({| localStorage := localStorage b;
        sockets := sockets b
                   ++ [{| url := address WEBSOCKET_URL (localStorage b);
                          readyState := CONNECTING |}] |},
     length (sockets b)).
Proof. reflexivity. Qed.

(** The cleanup closes the socket it holds when that socket is open, and
    does nothing otherwise. *)
Lemma cleanup_closes_open (b : browser) (socket : nat) (s : WebSocket) :
  sockets b !! socket = Some s ->
  cleanup socket b
  = match readyState s with
    | OPEN => {| localStorage := localStorage b;
                 sockets := <[socket := close s]> (sockets b) |}
    | _ => b
    end.
Proof.
  intros Hs. unfold cleanup. rewrite Hs. reflexivity.
Qed.

Lemma page_invariant_step (e : page_event) (p : page) :
  page_invariant WEBSOCKET_URL p ->
  page_invariant WEBSOCKET_URL (page_step WEBSOCKET_URL e p).
Proof.
  unfold page_invariant. intros Hinv.
  destruct e as [|ok token session_id|socket ev]; cbn [page_step].
  - unfold handleSubmit.
    destruct (isAuthenticated p) eqn:Hauth; cbn [orb]; [rewrite Hauth; exact Hinv|].
    destruct (loading p); cbn [isAuthenticated voice storage];
      [rewrite Hauth|]; exact Hinv.
  - unfold handleLogin.
    destruct (loading p) eqn:Hload; cbn [negb]; [|rewrite Hload; exact Hinv].
    destruct (isAuthenticated p) eqn:Hauth.
    { destruct Hinv as [Hl _]. congruence. }
    destruct Hinv as [Hvoice Hsockets].
    destruct ok; cbn [isAuthenticated loading voice storage sockets localStorage
                        effect fst snd].
    + rewrite Hsockets. cbn [app length].
      split; [reflexivity|]. split; [reflexivity|].
      split; [rewrite lookup_insert_eq; eauto|].
      eexists. split; reflexivity.
    + split; assumption.
  - cbn [isAuthenticated loading voice storage].
    destruct (isAuthenticated p).
    + destruct Hinv as (Hl & Hv & Hid & s & Hs & Hurl).
      split; [exact Hl|]. split; [exact Hv|].
      unfold network. rewrite Hs.
      destruct socket as [|socket].
      * cbn [lookup list_lookup localStorage sockets].
        split; [exact Hid|].
        eexists. split; [reflexivity|]. exact Hurl.
      * change ([s] !! S socket) with (@nil WebSocket !! socket).
        rewrite lookup_nil. split; [exact Hid|]. exists s. split; assumption.
    + destruct Hinv as [Hv Hs]. unfold network. rewrite Hs, lookup_nil.
      split; assumption.
Qed.

Lemma page_invariant_run (events : list page_event) :
  page_invariant WEBSOCKET_URL (page_run WEBSOCKET_URL events start_page).
Proof.
  induction events as [|e events IH] using rev_ind.
  - split; reflexivity.
  - unfold page_run. rewrite foldl_app. apply page_invariant_step, IH.
Qed.

End Sockets.

(** C7, as stated, fails: the cleanup does not close a socket that is
    still connecting, so a component that is unmounted before the
    connection is established and mounted again holds two channels for
    one session. *)
Lemma remount_holds_two_channels :
  ~ (forall (WEBSOCKET_URL : string) (b : Channel.browser)
       (events : list Channel.lifecycle),
       Channel.sockets b = [] ->
       (Channel.channels
          (Channel.address WEBSOCKET_URL (Channel.localStorage b))
          (Channel.lifecycle_run WEBSOCKET_URL events (b, None)).1 <= 1)%nat).
Proof.
  intros H.
  specialize (H "ws://localhost:8000/ws"
                {| Channel.localStorage := {["session_id" := "s1"]};
                   Channel.sockets := [] |}
                [Channel.Mount; Channel.Unmount; Channel.Mount] eq_refl).
  vm_compute in H. lia.
Qed.

(** C7, amended. On mount the effect opens exactly one socket,
    addressed to the stored session id; the cleanup closes that socket
    when it is open and leaves it alone otherwise. On the page, where
    the component is mounted once, after a successful login, and never
    unmounted, there is no socket before the login and exactly one after
    it, addressed to the session the login has stored. *)
Theorem one_channel_per_login (WEBSOCKET_URL : string) :
  (forall b : Channel.browser,
     Channel.effect WEBSOCKET_URL b
     = ({| Channel.localStorage := Channel.localStorage b;
           Channel.sockets :=
             Channel.sockets b
             ++ [{| Channel.url :=
                      Channel.address WEBSOCKET_URL (Channel.localStorage b);
                    Channel.readyState := Channel.CONNECTING |}] |},
        length (Channel.sockets b))) /\
  (forall (b : Channel.browser) (socket : nat) (s : Channel.WebSocket),
     Channel.sockets b !! socket = Some s ->
     Channel.cleanup socket b
     = match Channel.readyState s with
       | Channel.OPEN =>
           {| Channel.localStorage := Channel.localStorage b;
              Channel.sockets :=
                <[socket := Channel.close s]> (Channel.sockets b) |}
       | _ => b
       end) /\
  forall events : list Channel.page_event,
    let p := Channel.page_run WEBSOCKET_URL events Channel.start_page in
    let storage := Channel.localStorage (Channel.storage p) in
    if Channel.isAuthenticated p then
      is_Some (storage !! "session_id") /\
      Channel.voice p = Some 0%nat /\
      exists s : Channel.WebSocket,
        Channel.sockets (Channel.storage p) = [s] /\
        Channel.url s = Channel.address WEBSOCKET_URL storage
    else
      Channel.voice p = None /\ Channel.sockets (Channel.storage p) = [].
Proof.
  split; [apply effect_opens_one|]. split; [apply cleanup_closes_open|].
  intros events p storage.
  pose proof (page_invariant_run WEBSOCKET_URL events) as Hinv.
  unfold Channel.page_invariant in Hinv. fold p in Hinv.
  destruct (Channel.isAuthenticated p); [|exact Hinv].
  destruct Hinv as (_ & Hv & Hid & Hs). auto.
Qed.

Lemma one_channel_per_login_witness :
  let b :=
    {| Channel.localStorage := {["session_id" := "s1"]};
       Channel.sockets :=
         [{| Channel.url := "ws://localhost:8000/ws/audio/s1";
             Channel.readyState := Channel.OPEN |}] |} in
  Channel.cleanup 0 b
  = {| Channel.localStorage := {["session_id" := "s1"]};
       Channel.sockets :=
         [{| Channel.url := "ws://localhost:8000/ws/audio/s1";
             Channel.readyState := Channel.CLOSING |}] |}.
Proof.
  intros b.
  exact (proj1 (proj2 (one_channel_per_login "ws://localhost:8000/ws"))
           b 0%nat
           {| Channel.url := "ws://localhost:8000/ws/audio/s1";
              Channel.readyState := Channel.OPEN |}
           eq_refl).
Defined.

(** ** The dialog step on the server: one marker per accepted input *)

Section StepRunner.
Import Server.









(** Scenario 1 of the spec: audio input on an idle session gives binary
    frames, then one end of response, then one end of dialog step. *)
Example scenario_1_frames :
  sent (run [Submit (audio_blob [x01]%byte); Chunk (binary [x00; x80]%byte);
             Chunk (binary [xff; x7f]%byte); ResponseComplete;
             StepComplete [{| turn_role := assistant; content := "Hello" |}]]
          (create None))
  = [binary [x00; x80]%byte; binary [xff; x7f]%byte; end_of_response;
     end_of_dialog_step].
Proof. reflexivity. Qed.

(** Scenario 5 of the spec: when the Agent fails, or its deadline
    passes, both terminators are still sent and a failure turn is
    appended to the log. *)
Example scenario_5_frames :
  let s := run [Submit (audio_blob [x01]%byte); AgentFailure] (create None) in
  sent s = [end_of_response; end_of_dialog_step] /\
  log s = [failure_turn] /\ turn_gate s = IDLE.
Proof. repeat split. Qed.

End StepRunner.




(** ** helpers/audio.ts and VoiceInteraction.tsx: the volume and the distortion *)

Section Volume.
Import JS Audio.

Lemma sum_of_elements_range (array : Uint8Array) :
  0 <= sum_of_elements array <= 255 * Z.of_nat (length array).
Proof.
  unfold sum_of_elements. induction array as [|b array IH].
  - simpl. lia.
  - rewrite fmap_cons. cbn [foldr length]. pose proof (u8_range b). lia.
Qed.

Lemma sum_of_elements_zero (array : Uint8Array) :
  sum_of_elements array = 0 <-> Forall (fun b => u8 b = 0) array.
Proof.
  unfold sum_of_elements. induction array as [|b array IH].
  - simpl. split; [constructor|reflexivity].
  - rewrite fmap_cons. cbn [foldr]. pose proof (u8_range b) as Hb.
    pose proof (sum_of_elements_range array) as Hs.
    unfold sum_of_elements in Hs. rewrite Forall_cons. split.
    + intros H. split; [lia|]. apply IH. lia.
    + intros [H0 Hall]. apply IH in Hall. lia.
Qed.

(** The value [getAverageVolume] returns for a non-empty array. *)
Lemma getAverageVolume_value (array : Uint8Array) :
  array <> [] ->
  getAverageVolume array
  = Num (inject_Z (sum_of_elements array)
         / inject_Z (Z.of_nat (length array)))%Q.
Proof.
  intros Hne. unfold getAverageVolume.
  pose proof (for_loop_sum [] array 0) as H. simpl in H. rewrite H.
  unfold div. destruct array as [|b array]; [congruence|].
  replace (Z.of_nat (length (b :: array)) =? 0) with false
    by (symmetry; apply Z.eqb_neq; simpl length; lia).
  reflexivity.
Qed.

Lemma quotient_range (total count bound : Z) :
  0 < count -> 0 <= total <= bound * count ->
  (0 <= inject_Z total / inject_Z count)%Q /\
  (inject_Z total / inject_Z count <= inject_Z bound)%Q /\
  ((inject_Z total / inject_Z count == 0)%Q <-> total = 0).
Proof.
  intros Hc Ht. destruct count as [|p|p]; try lia.
  unfold Qle, Qeq, Qdiv, Qmult, Qinv, inject_Z. simpl. repeat split; nia.
Qed.

Lemma existsb_positive (array : Uint8Array) :
  existsb (fun value => 0 <? u8 value) array = false
  <-> Forall (fun b => u8 b = 0) array.
Proof.
  induction array as [|b array IH]; simpl.
  - split; [constructor|reflexivity].
  - rewrite orb_false_iff, Forall_cons, IH. pose proof (u8_range b).
    destruct (Z.ltb_spec 0 (u8 b)); split; intros [H1 H2]; split;
      try assumption; try lia; try reflexivity; try discriminate.
Qed.

End Volume.

(** X1. For a non-empty array [getAverageVolume] returns a finite number
    between 0 and 255. *)
Theorem getAverageVolume_in_byte_range (array : JS.Uint8Array) :
  array <> [] ->
  exists q : Q,
    Audio.getAverageVolume array = JS.Num q /\ (0 <= q)%Q /\ (q <= 255)%Q.
Proof.
  intros Hne. eexists. split; [apply getAverageVolume_value, Hne|].
  destruct array as [|b array]; [congruence|].
  destruct (quotient_range (Audio.sum_of_elements (b :: array))
              (Z.of_nat (length (b :: array))) 255) as (H0 & H255 & _).
  - simpl length. lia.
  - apply sum_of_elements_range.
  - split; assumption.
Qed.

Lemma getAverageVolume_in_byte_range_witness :
  exists q : Q,
    Audio.getAverageVolume [x10; xff; x00]%byte = JS.Num q /\
    (0 <= q)%Q /\ (q <= 255)%Q.
Proof.
  apply (getAverageVolume_in_byte_range [x10; xff; x00]%byte). discriminate.
Defined.

(** X2. Whatever the analyser delivers, [updateAnimation] sets a finite
    distortion between 0 and 510, never NaN, also for an array without
    elements; the distortion is 0 exactly when every element is 0. *)
Theorem updateAnimation_distortion (frequencyDataArray : JS.Uint8Array) :
  exists q : Q,
    Voice.updateAnimation frequencyDataArray = JS.Num q /\
    (0 <= q)%Q /\ (q <= 510)%Q /\
    ((q == 0)%Q <-> Forall (fun b => JS.u8 b = 0) frequencyDataArray).
Proof.
  unfold Voice.updateAnimation.
  destruct (existsb _ frequencyDataArray) eqn:Hsome.
  - assert (Hne : frequencyDataArray <> []) by (intros ->; discriminate).
    assert (Hnz : ~ Forall (fun b => JS.u8 b = 0) frequencyDataArray).
    { intros Hall. apply existsb_positive in Hall. congruence. }
    rewrite (getAverageVolume_value _ Hne). cbn [JS.mul].
    eexists. split; [reflexivity|].
    destruct (quotient_range (Audio.sum_of_elements frequencyDataArray)
                (Z.of_nat (length frequencyDataArray)) 255)
      as (H0 & H255 & Hz).
    + destruct frequencyDataArray; [congruence|simpl length; lia].
    + apply sum_of_elements_range.
    + rewrite <- sum_of_elements_zero in Hnz.
      change (inject_Z 255) with 255%Q in H255.
      change (inject_Z 2) with 2%Q.
      split; [lra|]. split; [lra|]. split.
      * intros Hq. exfalso. apply Hnz, Hz. lra.
      * intros Hall. apply sum_of_elements_zero in Hall. contradiction.
  - exists 0%Q. split; [reflexivity|]. split; [lra|]. split; [lra|].
    split; [intros _; apply existsb_positive, Hsome|reflexivity].
Qed.

(** ** VoiceInteraction.tsx: odd lengths, and decoding without loss *)

Section Samples.
Import JS Voice.

Lemma iterations_odd (pcmData : Uint8Array) (n : nat) :
  length pcmData = (2 * n + 1)%nat ->
  Z.to_nat (Qceiling (totalSamples pcmData)) = S n.
Proof.
  intros Hlen.
  unfold totalSamples, bytesPerSample, Qceiling, Qfloor, Qopp, Qdiv, Qmult,
    Qinv, inject_Z.
  simpl Qnum. simpl Qden. rewrite Hlen.
  replace (- (Z.of_nat (2 * n + 1) * 1)) with (- Z.of_nat (S n) * 2 + 1) by lia.
  change (Z.pos (1 * 2)) with 2.
  rewrite Z.div_add_l by lia. change (1 / 2) with 0. lia.
Qed.

(** The samples written into a fresh buffer of [n] frames by a loop of at
    least [n] rounds. *)
Lemma decode_fresh (pcmData : Uint8Array) (n k : nat) :
  (n <= k)%nat ->
  for_loop k 0 (fun i channelData => <[i := decode_sample pcmData i]> channelData)
    (replicate n 0%Q)
  = decode_sample pcmData <$> seq 0 n.
Proof.
  intros Hk.
  destruct (for_loop_insert (decode_sample pcmData) k 0 (replicate n 0%Q))
    as [Hlength Hget].
  apply list_eq. intros i. rewrite Hget, list_lookup_fmap.
  destruct (decide (i < n)%nat) as [Hi|Hi].
  - destruct (decide _); [|lia].
    rewrite lookup_replicate_2 by lia. rewrite lookup_seq_lt by lia.
    reflexivity.
  - rewrite (lookup_ge_None_2 (replicate n 0%Q) i)
      by (rewrite length_replicate; lia).
    rewrite lookup_seq_ge by lia. destruct (decide _); reflexivity.
Qed.

Lemma decode_sample_app (pcmData rest : Uint8Array) (i : nat) :
  (2 * i + 1 < length pcmData)%nat ->
  decode_sample (pcmData ++ rest) i = decode_sample pcmData i.
Proof.
  intros Hi. unfold decode_sample, int32_at, bytesPerSample.
  rewrite !lookup_app_l by lia. reflexivity.
Qed.

(** The samples of an even-length call, one per pair of bytes. *)
Lemma decoded_even (currentTime : Q) (pcmData : Uint8Array) (n : nat)
    (st : state) :
  audioContextRef st = true ->
  length pcmData = (2 * n)%nat ->
  decoded st (queueAudioChunk currentTime pcmData st)
  = decode_sample pcmData <$> seq 0 n.
Proof.
  intros Hctx Hlen. unfold decoded. destruct n as [|n].
  - destruct pcmData; [|discriminate].
    rewrite queueAudioChunk_returns by (right; reflexivity).
    cbn [state_after]. rewrite drop_all. reflexivity.
  - destruct (queueAudioChunk_starts currentTime pcmData st Hctx ltac:(lia))
      as (st' & -> & Hstarted & _).
    cbn [state_after]. rewrite Hstarted, drop_app_length.
    cbn [map concat buffer channelData]. rewrite app_nil_r.
    unfold decode. rewrite (iterations_even pcmData (S n) Hlen).
    replace (length pcmData / 2)%nat with (S n)
      by (rewrite Hlen; symmetry; rewrite Nat.mul_comm; apply Nat.div_mul; lia).
    apply decode_fresh. lia.
Qed.

Lemma u8_inj (a b : byte) : u8 a = u8 b -> a = b.
Proof.
  unfold u8. intros H. apply N2Z.inj in H.
  pose proof (Byte.of_to_N a) as Ha. pose proof (Byte.of_to_N b) as Hb.
  rewrite H in Ha. congruence.
Qed.

Lemma signed_int16_le_inj (lo hi lo' hi' : byte) :
  signed_int16_le lo hi = signed_int16_le lo' hi' -> lo = lo' /\ hi = hi'.
Proof.
  unfold signed_int16_le. intros H.
  pose proof (u8_range lo). pose proof (u8_range hi).
  pose proof (u8_range lo'). pose proof (u8_range hi').
  assert (Hw : forall v, 0 <= v < 65536 ->
                (v + 32768) mod 65536
                = if 32768 <=? v then v - 32768 else v + 32768).
  { intros v Hv. destruct (Z.leb_spec 32768 v).
    - symmetry. apply Z.mod_unique with (q := 1); lia.
    - apply Z.mod_small. lia. }
  rewrite !Hw in H by lia.
  destruct (Z.leb_spec 32768 (u8 lo + 256 * u8 hi));
    destruct (Z.leb_spec 32768 (u8 lo' + 256 * u8 hi'));
    split; apply u8_inj; lia.
Qed.

Lemma decode_sample_inj (pcmData pcmData' : Uint8Array) (i : nat)
    (lo hi lo' hi' : byte) :
  pcmData !! (2 * i)%nat = Some lo -> pcmData !! (2 * i + 1)%nat = Some hi ->
  pcmData' !! (2 * i)%nat = Some lo' -> pcmData' !! (2 * i + 1)%nat = Some hi' ->
  decode_sample pcmData i = decode_sample pcmData' i ->
  lo = lo' /\ hi = hi'.
Proof.
  intros Hlo Hhi Hlo' Hhi' Heq.
  rewrite (decode_sample_pair _ _ _ _ Hlo Hhi) in Heq.
  rewrite (decode_sample_pair _ _ _ _ Hlo' Hhi') in Heq.
  apply signed_int16_le_inj.
  apply (f_equal Qnum) in Heq. unfold Qdiv, Qmult, Qinv, inject_Z in Heq.
  simpl in Heq. lia.
Qed.

End Samples.

(** X3. A trailing odd byte is ignored: a call with an even number of
    bytes, at least two, followed by one more byte leaves exactly the
    state of the call without that byte; a call with a single byte
    throws NotSupportedError and changes nothing. *)
Theorem trailing_byte_ignored (currentTime : Q) (pcmData : JS.Uint8Array)
    (n : nat) (last : byte) (st : Voice.state) :
  Voice.audioContextRef st = true ->
  length pcmData = (2 * n)%nat ->
  Voice.queueAudioChunk currentTime (pcmData ++ [last]) st
  = match n with
    | O => JS.Throws "NotSupportedError" st
    | S _ => Voice.queueAudioChunk currentTime pcmData st
    end.
Proof.
  intros Hctx Hlen. destruct n as [|n].
  - destruct pcmData; [|discriminate].
    apply queueAudioChunk_throws, Hctx.
  - assert (Hlen' : length (pcmData ++ [last]) = (2 * S n + 1)%nat)
      by (rewrite length_app; simpl; lia).
    assert (Hdata :
      Voice.decode (pcmData ++ [last])
        (replicate (length (pcmData ++ [last]) / 2) 0%Q)
      = Voice.decode pcmData (replicate (length pcmData / 2) 0%Q)).
    { unfold Voice.decode.
      rewrite (iterations_odd _ (S n) Hlen'), (iterations_even _ (S n) Hlen).
      replace (length (pcmData ++ [last]) / 2)%nat with (S n).
      2:{ rewrite Hlen'. symmetry.
          replace (2 * S n + 1)%nat with (1 + S n * 2)%nat by lia.
          rewrite Nat.div_add by lia. reflexivity. }
      replace (length pcmData / 2)%nat with (S n)
        by (rewrite Hlen; symmetry; rewrite Nat.mul_comm; apply Nat.div_mul; lia).
      rewrite !decode_fresh by lia.
      apply list_eq. intros i. rewrite !list_lookup_fmap.
      destruct (decide (i < S n)%nat) as [Hi|Hi].
      - rewrite lookup_seq_lt by lia. cbn [fmap option_fmap option_map].
        rewrite decode_sample_app by lia. reflexivity.
      - rewrite lookup_seq_ge by lia. reflexivity. }
    assert (Hhalf : (length (pcmData ++ [last]) / 2)%nat
                    = (length pcmData / 2)%nat).
    { rewrite Hlen', Hlen.
      replace (2 * S n + 1)%nat with (1 + S n * 2)%nat by lia.
      rewrite Nat.div_add by lia.
      rewrite Nat.mul_comm, Nat.div_mul by lia. reflexivity. }
    rewrite Hhalf in Hdata.
    unfold Voice.queueAudioChunk. rewrite Hctx. cbn [negb].
    destruct (Nat.eqb_spec (length (pcmData ++ [last])) 0); [lia|].
    destruct (Nat.eqb_spec (length pcmData) 0); [lia|].
    unfold Voice.createBuffer. rewrite !frames_half, Hhalf.
    destruct (length pcmData / 2 =? 0)%nat; [reflexivity|].
    cbn [Voice.channelData Voice.bufferRate]. rewrite Hdata.
    reflexivity.
Qed.

Lemma trailing_byte_ignored_witness :
  Voice.queueAudioChunk 0 ([x00; x80] ++ [x7f])%byte (Voice.mount Voice.initial)
  = Voice.queueAudioChunk 0 [x00; x80]%byte (Voice.mount Voice.initial).
Proof.
  apply (trailing_byte_ignored 0 [x00; x80]%byte 1 x7f
           (Voice.mount Voice.initial)); reflexivity.
Defined.

(** X4. Decoding loses nothing: two byte arrays of even length that the
    component decodes to the same samples are the same array. *)
Theorem decoding_is_injective (currentTime currentTime' : Q)
    (pcmData pcmData' : JS.Uint8Array) (n n' : nat) (st st' : Voice.state) :
  Voice.audioContextRef st = true ->
  Voice.audioContextRef st' = true ->
  length pcmData = (2 * n)%nat ->
  length pcmData' = (2 * n')%nat ->
  Voice.decoded st (Voice.queueAudioChunk currentTime pcmData st)
  = Voice.decoded st' (Voice.queueAudioChunk currentTime' pcmData' st') ->
  pcmData = pcmData'.
Proof.
  intros Hctx Hctx' Hlen Hlen' Heq.
  rewrite (decoded_even _ _ n _ Hctx Hlen) in Heq.
  rewrite (decoded_even _ _ n' _ Hctx' Hlen') in Heq.
  assert (Hn : n = n').
  { apply (f_equal length) in Heq.
    rewrite !length_fmap, !length_seq in Heq. exact Heq. }
  subst n'.
  assert (Hpair : forall i, (i < n)%nat ->
            pcmData !! (2 * i)%nat = pcmData' !! (2 * i)%nat /\
            pcmData !! (2 * i + 1)%nat = pcmData' !! (2 * i + 1)%nat).
  { intros i Hi.
    destruct (lookup_lt_is_Some_2 pcmData (2 * i)) as [lo Hlo]; [lia|].
    destruct (lookup_lt_is_Some_2 pcmData (2 * i + 1)) as [hi Hhi]; [lia|].
    destruct (lookup_lt_is_Some_2 pcmData' (2 * i)) as [lo' Hlo']; [lia|].
    destruct (lookup_lt_is_Some_2 pcmData' (2 * i + 1)) as [hi' Hhi']; [lia|].
    assert (Hs : Voice.decode_sample pcmData i = Voice.decode_sample pcmData' i).
    { apply (f_equal (fun l => l !! i)) in Heq.
      rewrite !list_lookup_fmap, !lookup_seq_lt in Heq by lia.
      cbn in Heq. congruence. }
    destruct (decode_sample_inj _ _ _ _ _ _ _ Hlo Hhi Hlo' Hhi' Hs) as [-> ->].
    rewrite Hlo, Hhi, Hlo', Hhi'. split; reflexivity. }
  apply list_eq. intros j.
  destruct (decide (j < 2 * n)%nat) as [Hj|Hj].
  - destruct (Nat.Even_or_Odd j) as [[i ->]|[i ->]].
    + apply Hpair. lia.
    + apply Hpair. lia.
  - rewrite !lookup_ge_None_2 by lia. reflexivity.
Qed.

Lemma decoding_is_injective_witness :
  [x00; x80]%byte = [x00; x80]%byte.
Proof.
  apply (decoding_is_injective 0 1 [x00; x80]%byte [x00; x80]%byte 1 1
           (Voice.mount Voice.initial) (Voice.mount Voice.initial));
    reflexivity.
Defined.

(** ** VoiceInteraction.tsx: the counter of playing sources *)

Section Playing.
Import JS AudioStream Voice.
Variable API_URL : string.
Variable localStorage : gmap string string.

(** What a call of [queueAudioChunk] does to the queue: it starts one
    source and counts it, or it does neither. *)
Lemma queueAudioChunk_counts (currentTime : Q) (pcmData : Uint8Array)
    (st : state) :
  let st' := state_after (queueAudioChunk currentTime pcmData st) in
  audioContextRef st' = audioContextRef st /\
  (audioStartTimeRef st <= audioStartTimeRef st')%Q /\
  ((started st' = started st /\
    numSourcesPlaying st' = numSourcesPlaying st /\
    audioStartTimeRef st' = audioStartTimeRef st) \/
   (exists src : source,
      started st' = started st ++ [src] /\
      numSourcesPlaying st' = numSourcesPlaying st + 1)).
Proof.
  destruct (audioContextRef st) eqn:Hctx.
  - destruct (decide (2 <= length pcmData)%nat) as [Hlen|Hlen].
    + destruct (queueAudioChunk_starts currentTime pcmData st Hctx Hlen)
        as (st' & -> & Hstarted & Hend & Hcount & Hctx' & _).
      cbn [state_after]. split; [exact Hctx'|]. split.
      * rewrite Hend. unfold scheduled_end. cbn [when buffer].
        pose proof (duration_nonneg
          (decode pcmData (replicate (length pcmData / 2) 0%Q))) as Hd.
        destruct (Qlt_le_dec (audioStartTimeRef st) currentTime); lra.
      * right. eexists. split; [exact Hstarted|exact Hcount].
    + cbv zeta. rewrite queueAudioChunk_short by (try exact Hctx; lia).
      split; [exact Hctx|]. split; [lra|]. left. auto.
  - cbv zeta. rewrite queueAudioChunk_returns by (left; exact Hctx).
    cbn [state_after]. split; [exact Hctx|]. split; [lra|]. left. auto.
Qed.

(** What one event does to the queue and to the counter. *)
Lemma step_counts (e : event) (st : state) :
  let st' := step API_URL localStorage e st in
  (audioStartTimeRef st <= audioStartTimeRef st')%Q /\
  numSourcesPlaying st' - Z.of_nat (length (started st'))
  = numSourcesPlaying st - Z.of_nat (length (started st))
    - Z.of_nat (ended_sources [e]).
Proof.
  destruct e as [code|code|event_data currentTime| |blob post| |error];
    cbn [step ended_sources List.filter length].
  - unfold handleKeyDown. destruct (_ && _); cbn; split; (lra || lia).
  - unfold handleKeyUp. destruct (_ && _); cbn; split; (lra || lia).
  - destruct event_data as [bytes|data]; cbn [onmessage].
    + destruct (queueAudioChunk_counts currentTime bytes st)
        as (_ & Hmono & [(Hs & Hc & _)|(src & Hs & Hc)]).
      * split; [exact Hmono|]. rewrite Hs, Hc. lia.
      * split; [exact Hmono|]. rewrite Hs, Hc, length_app. simpl. lia.
    + destruct (onmessage_text data currentTime st)
        as (st' & Hcall & _ & _ & _ & _ & _ & Ht & _ & Hc & Hs).
      unfold onmessage in Hcall. rewrite Hcall. cbn [state_after].
      rewrite Ht, Hc, Hs. split; [lra|lia].
  - unfold onended.
    cbn [numSourcesPlaying set_numSourcesPlaying print].
    destruct (_ =? 0); cbn; split; (lra || lia).
  - destruct (onStop_resets API_URL localStorage post blob st)
      as (_ & _ & Hs & Hc).
    rewrite Hs, Hc. split; [|lia].
    unfold onStop. destruct (sendAudio _ _ _ _) as [[?|?] ?]; cbn; lra.
  - cbn. split; [lra|lia].
  - cbn. split; [lra|lia].
Qed.

Lemma ended_sources_cons (e : event) (events : list event) :
  ended_sources (e :: events)
  = (ended_sources [e] + ended_sources events)%nat.
Proof.
  unfold ended_sources. cbn [List.filter]. destruct e; reflexivity.
Qed.

Lemma run_counts (events : list event) (st : state) :
  let st' := run API_URL localStorage events st in
  (audioStartTimeRef st <= audioStartTimeRef st')%Q /\
  numSourcesPlaying st' - Z.of_nat (length (started st'))
  = numSourcesPlaying st - Z.of_nat (length (started st))
    - Z.of_nat (ended_sources events).
Proof.
  revert st. induction events as [|e events IH]; intros st.
  - cbn. split; [lra|lia].
  - destruct (step_counts e st) as [Hm Hc].
    destruct (IH (step API_URL localStorage e st)) as [Hm' Hc'].
    cbv zeta. cbn [run foldl]. fold (run API_URL localStorage events
                                       (step API_URL localStorage e st)).
    split; [lra|]. rewrite Hc', Hc, (ended_sources_cons e events). lia.
Qed.

End Playing.

(** X5. On every trace of events the counter of playing sources is the
    number of sources started minus the number of sources that have
    ended. *)
Theorem numSourcesPlaying_counts (API_URL : string)
    (localStorage : gmap string string) (events : list Voice.event) :
  let st := Voice.run API_URL localStorage events (Voice.mount Voice.initial) in
  Voice.numSourcesPlaying st
  = Z.of_nat (length (Voice.started st))
    - Z.of_nat (Voice.ended_sources events).
Proof.
  intros st.
  destruct (run_counts API_URL localStorage events (Voice.mount Voice.initial))
    as [_ H].
  fold st in H. cbn in H. lia.
Qed.

(** X6. Whatever happened before, when a source ends and every started
    source has then ended, recording is allowed again and the status
    line asks for the space bar. *)
Theorem last_source_end_allows_recording (API_URL : string)
    (localStorage : gmap string string) (events : list Voice.event) :
  let st :=
    Voice.run API_URL localStorage (events ++ [Voice.Ended])
      (Voice.mount Voice.initial) in
  length (Voice.started st) = Voice.ended_sources (events ++ [Voice.Ended]) ->
  Voice.allowRecordingRef st = true /\
  Voice.aiStatusMessage st = "Press the space bar to speak!" /\
  Voice.numSourcesPlaying st = 0.
Proof.
  intros st Hall. subst st. unfold Voice.run in *. rewrite foldl_app in *.
  cbn [foldl Voice.step] in *.
  fold (Voice.run API_URL localStorage events (Voice.mount Voice.initial)) in *.
  set (st := Voice.run API_URL localStorage events (Voice.mount Voice.initial))
    in *.
  destruct (run_counts API_URL localStorage events (Voice.mount Voice.initial))
    as [_ H].
  fold st in H. cbn in H.
  assert (Hstarted : Voice.started (Voice.onended st) = Voice.started st).
  { unfold Voice.onended.
    cbn [Voice.numSourcesPlaying Voice.set_numSourcesPlaying Voice.print].
    destruct (_ =? 0); reflexivity. }
  rewrite Hstarted in Hall.
  assert (Hended : Voice.ended_sources (events ++ [Voice.Ended])
                   = S (Voice.ended_sources events)).
  { unfold Voice.ended_sources. rewrite List.filter_app, length_app.
    simpl. lia. }
  rewrite Hended in Hall.
  assert (Hone : Voice.numSourcesPlaying st = 1) by lia.
  unfold Voice.onended.
  cbn [Voice.numSourcesPlaying Voice.set_numSourcesPlaying Voice.print].
  rewrite Hone. cbn. repeat split.
Qed.

Lemma last_source_end_allows_recording_witness :
  let st :=
    Voice.run "http://localhost:8000" ∅
      ([Voice.KeyDown "Space"; Voice.KeyUp "Space";
        Voice.Message (AudioStream.ArrayBuffer [x00; x80]%byte) 0;
        Voice.Message (AudioStream.ArrayBuffer [xff; x7f]%byte) 0;
        Voice.Ended] ++ [Voice.Ended])
      (Voice.mount Voice.initial) in
  Voice.allowRecordingRef st = true /\
  Voice.aiStatusMessage st = "Press the space bar to speak!" /\
  Voice.numSourcesPlaying st = 0.
Proof.
  apply (last_source_end_allows_recording "http://localhost:8000" ∅
           [Voice.KeyDown "Space"; Voice.KeyUp "Space";
            Voice.Message (AudioStream.ArrayBuffer [x00; x80]%byte) 0;
            Voice.Message (AudioStream.ArrayBuffer [xff; x7f]%byte) 0;
            Voice.Ended]).
  reflexivity.
Defined.

(** X7. The time up to which audio is scheduled never moves back: no
    event lowers [audioStartTimeRef]. *)
Theorem audioStartTimeRef_monotone (API_URL : string)
    (localStorage : gmap string string) (events : list Voice.event)
    (st : Voice.state) :
  (Voice.audioStartTimeRef st
   <= Voice.audioStartTimeRef (Voice.run API_URL localStorage events st))%Q.
Proof.
  apply (run_counts API_URL localStorage events st).
Qed.

(** ** VoiceInteraction.tsx and audioStream.ts: the two handlers, and the store *)

Section Handlers.
Import JS AudioStream Voice.
Variable API_URL : string.
Variable localStorage : gmap string string.

Lemma print_print (a b : list console_call) (st : state) :
  print b (print a st) = print (a ++ b) st.
Proof.
  unfold print. cbn. rewrite app_assoc. reflexivity.
Qed.

(** [queueAudioChunk] never touches the received message. *)
Lemma queueAudioChunk_keeps_message (currentTime : Q) (pcmData : Uint8Array)
    (st : state) :
  receivedMessage (state_after (queueAudioChunk currentTime pcmData st))
  = receivedMessage st.
Proof.
  destruct (audioContextRef st) eqn:Hctx.
  - destruct (decide (2 <= length pcmData)%nat) as [Hlen|Hlen].
    + destruct (queueAudioChunk_starts currentTime pcmData st Hctx Hlen)
        as (st' & -> & _ & _ & _ & _ & _ & _ & Hmsg & _).
      exact Hmsg.
    + rewrite queueAudioChunk_short by (try exact Hctx; lia). reflexivity.
  - rewrite queueAudioChunk_returns by (left; exact Hctx). reflexivity.
Qed.

(** The received message after one event: the text of the frame when the
    frame asks to show an image, the message before otherwise. *)
Lemma step_receivedMessage (e : event) (st : state) :
  receivedMessage (step API_URL localStorage e st)
  = default (receivedMessage st) (last (show_image_texts [e])).
Proof.
  destruct e as [code|code|event_data currentTime| |blob post| |error];
    cbn [step show_image_texts flat_map app last default].
  - unfold handleKeyDown. destruct (_ && _); reflexivity.
  - unfold handleKeyUp. destruct (_ && _); reflexivity.
  - destruct event_data as [bytes|data]; cbn [onmessage].
    + apply queueAudioChunk_keeps_message.
    + cbn [state_after]. destruct (JSON_parse data) as [jsonObj|];
        [|reflexivity].
      destruct (get_type jsonObj) as [v| |]; cbv zeta; try reflexivity.
      destruct (strict_eq (Value v) "END_OF_STREAM") eqn:Hend.
      * destruct v; try discriminate. cbn [strict_eq] in *.
        apply String.eqb_eq in Hend. subst. reflexivity.
      * destruct (strict_eq (Value v) "show_image"); reflexivity.
  - unfold onended.
    cbn [numSourcesPlaying set_numSourcesPlaying print].
    destruct (_ =? 0); reflexivity.
  - unfold onStop. destruct (sendAudio _ _ _ _) as [[?|?] ?]; reflexivity.
  - reflexivity.
  - reflexivity.
Qed.

Lemma show_image_texts_cons (e : event) (events : list event) :
  show_image_texts (e :: events)
  = show_image_texts [e] ++ show_image_texts events.
Proof.
  unfold show_image_texts. cbn [flat_map]. rewrite app_nil_r. reflexivity.
Qed.

Lemma run_receivedMessage (events : list event) (st : state) :
  receivedMessage (run API_URL localStorage events st)
  = default (receivedMessage st) (last (show_image_texts events)).
Proof.
  revert st. induction events as [|e events IH]; intros st; [reflexivity|].
  cbn [run foldl].
  fold (run API_URL localStorage events (step API_URL localStorage e st)).
  rewrite IH, step_receivedMessage, (show_image_texts_cons e events).
  destruct (show_image_texts events) as [|t ts] eqn:Hrest.
  - rewrite app_nil_r. reflexivity.
  - rewrite last_app. cbn [last]. destruct (last (t :: ts)) eqn:Hl.
    + reflexivity.
    + apply last_None in Hl. discriminate.
Qed.

End Handlers.

(** X9. The handler written inline in VoiceInteraction does what the
    handler of [getAudioStream] does with the component's own
    [queueAudioChunk] and [onStreamEnd] as callbacks, on every frame that
    does not ask to show an image: the same state, the same console,
    the same exception. *)
Theorem inline_handler_matches_getAudioStream
    (event_data : AudioStream.frame) (currentTime : Q) (st : Voice.state) :
  Voice.asks_to_show_image event_data = false ->
  Voice.perform_all (AudioStream.onmessage true event_data) currentTime st
  = Voice.onmessage event_data currentTime st.
Proof.
  intros Hother. destruct event_data as [bytes|data];
    cbn [AudioStream.onmessage Voice.onmessage Voice.perform_all Voice.perform].
  - destruct (Voice.queueAudioChunk currentTime bytes st); reflexivity.
  - cbn [Voice.asks_to_show_image] in Hother.
    destruct (JS.JSON_parse data) as [jsonObj|].
    + destruct (JS.get_type jsonObj) as [v| |]; cbv zeta.
      * rewrite Hother.
        destruct (JS.strict_eq (JS.Value v) "END_OF_STREAM"); reflexivity.
      * reflexivity.
      * cbn [AudioStream.caught Voice.perform_all Voice.perform Voice.caught].
        rewrite print_print. reflexivity.
    + cbn [AudioStream.caught Voice.perform_all Voice.perform Voice.caught].
      rewrite print_print. reflexivity.
Qed.

Lemma inline_handler_matches_getAudioStream_witness :
  Voice.perform_all
    (AudioStream.onmessage true (AudioStream.Text "start")) 0
    (Voice.mount Voice.initial)
  = Voice.onmessage (AudioStream.Text "start") 0 (Voice.mount Voice.initial).
Proof.
  apply (inline_handler_matches_getAudioStream (AudioStream.Text "start") 0
           (Voice.mount Voice.initial)).
  vm_compute. reflexivity.
Defined.

(** X10. After any trace of events the received message is the text,
    byte for byte, of the latest frame that asked to show an image, and
    the empty string when no frame has: no other frame, key, upload or
    socket event ever writes it. *)
Theorem receivedMessage_is_latest_show_image (API_URL : string)
    (localStorage : gmap string string) (events : list Voice.event) :
  Voice.receivedMessage
    (Voice.run API_URL localStorage events (Voice.mount Voice.initial))
  = default "" (last (Voice.show_image_texts events)).
Proof.
  apply (run_receivedMessage API_URL localStorage events
           (Voice.mount Voice.initial)).
Qed.

(** ** VoiceInteraction.tsx: mounting again *)

Section Remount.
Import Channel.
Variable WEBSOCKET_URL : string.

Lemma live_close (s : WebSocket) : live (close s) = false.
Proof. reflexivity. Qed.

(** At most one live socket when every live socket sits at one index. *)
Lemma live_filter_unique (l : list WebSocket) :
  (forall (j1 j2 : nat) (s1 s2 : WebSocket),
     l !! j1 = Some s1 -> l !! j2 = Some s2 ->
     live s1 = true -> live s2 = true -> j1 = j2) ->
  (length (List.filter live l) <= 1)%nat.
Proof.
  induction l as [|a l IH]; intros Huniq; [simpl; lia|].
  cbn [List.filter]. destruct (live a) eqn:Ha.
  - assert (Hnone : List.filter live l = []).
    { destruct (List.filter live l) as [|s rest] eqn:Hf; [reflexivity|].
      assert (Hin : In s (List.filter live l)) by (rewrite Hf; left; reflexivity).
      apply List.filter_In in Hin as [Hin Hs].
      apply list_elem_of_In, list_elem_of_lookup in Hin as [j Hj].
      specialize (Huniq 0%nat (S j) a s eq_refl Hj Ha Hs). discriminate. }
    rewrite Hnone. simpl. lia.
  - apply IH. intros j1 j2 s1 s2 H1 H2 L1 L2.
    specialize (Huniq (S j1) (S j2) s1 s2 H1 H2 L1 L2). lia.
Qed.

(** The network never brings a socket back to life. *)
Lemma network_live (socket : nat) (e : network_event) (b : browser)
    (j : nat) (s' : WebSocket) :
  sockets (network socket e b) !! j = Some s' ->
  live s' = true ->
  exists s : WebSocket, sockets b !! j = Some s /\ live s = true.
Proof.
  unfold network. destruct (sockets b !! socket) as [s|] eqn:Hs;
    [|intros H L; eauto].
  cbn [sockets]. intros H L.
  destruct (decide (j = socket)) as [->|Hne].
  - rewrite list_lookup_insert_eq in H by (eapply lookup_lt_Some; eauto).
    injection H as <-. exists s. split; [exact Hs|].
    unfold live in *. cbn [readyState] in L.
    destruct e, (readyState s); (reflexivity || discriminate).
  - rewrite list_lookup_insert_ne in H by congruence. eauto.
Qed.

Lemma holds_step (e : lifecycle) (c : component) :
  unmounts_after_open WEBSOCKET_URL [e] c = true ->
  holds_the_live_socket c ->
  holds_the_live_socket (lifecycle_step WEBSOCKET_URL e c).
Proof.
  unfold holds_the_live_socket. destruct c as [b held].
  intros Horder Hinv. destruct e as [| |socket ev]; cbn [lifecycle_step].
  - destruct held as [i|]; [exact Hinv|].
    cbn [effect fst snd sockets]. intros j s Hj L.
    destruct (decide (j < length (sockets b))%nat) as [Hlt|Hge].
    + rewrite lookup_app_l in Hj by exact Hlt.
      specialize (Hinv j s Hj L). discriminate.
    + rewrite lookup_app_r in Hj by lia.
      destruct (j - length (sockets b))%nat eqn:Hd; [|discriminate].
      f_equal. lia.
  - destruct held as [i|]; [|exact Hinv].
    cbn [fst snd]. intros j s Hj L. exfalso.
    cbn [unmounts_after_open] in Horder. rewrite andb_true_r in Horder.
    unfold cleanup in Hj. cbn [fst] in Hinv.
    destruct (sockets b !! i) as [si|] eqn:Hi.
    + destruct (readyState si) eqn:Hstate; try discriminate.
      * cbn [sockets] in Hj.
        destruct (decide (j = i)) as [->|Hne].
        -- rewrite list_lookup_insert_eq in Hj
             by (eapply lookup_lt_Some; eauto).
           injection Hj as <-. discriminate.
        -- rewrite list_lookup_insert_ne in Hj by congruence.
           specialize (Hinv j s Hj L). cbn in Hinv. congruence.
      * pose proof (Hinv j s Hj L) as Hji. cbn in Hji.
        injection Hji as ->. rewrite Hi in Hj. injection Hj as <-.
        unfold live in L. rewrite Hstate in L. discriminate.
      * pose proof (Hinv j s Hj L) as Hji. cbn in Hji.
        injection Hji as ->. rewrite Hi in Hj. injection Hj as <-.
        unfold live in L. rewrite Hstate in L. discriminate.
    + pose proof (Hinv j s Hj L) as Hji. cbn in Hji.
      injection Hji as ->. congruence.
  - cbn [fst snd]. intros j s' Hj L.
    destruct (network_live socket ev b j s' Hj L) as (s & Hs & Ls).
    exact (Hinv j s Hs Ls).
Qed.

Lemma holds_run (events : list lifecycle) (c : component) :
  unmounts_after_open WEBSOCKET_URL events c = true ->
  holds_the_live_socket c ->
  holds_the_live_socket (lifecycle_run WEBSOCKET_URL events c).
Proof.
  revert c. induction events as [|e events IH]; intros c Horder Hinv;
    [exact Hinv|].
  cbn [unmounts_after_open] in Horder. apply andb_prop in Horder as [He Hrest].
  cbn [lifecycle_run foldl].
  apply (IH (lifecycle_step WEBSOCKET_URL e c) Hrest).
  apply holds_step; [|exact Hinv].
  cbn [unmounts_after_open]. rewrite He. reflexivity.
Qed.

(** What the cleanup leaves of a browser. *)
Lemma cleanup_shape (socket : nat) (b : browser) :
  localStorage (cleanup socket b) = localStorage b /\
  url <$> sockets (cleanup socket b) = url <$> sockets b /\
  forall s : WebSocket,
    sockets (cleanup socket b) !! socket = Some s -> readyState s <> OPEN.
Proof.
  unfold cleanup. destruct (sockets b !! socket) as [s0|] eqn:Hs.
  - destruct (readyState s0) eqn:Hstate; cbn [localStorage sockets];
      try (split; [reflexivity|]; split; [reflexivity|];
           intros s Hget; rewrite Hs in Hget; injection Hget as <-;
           congruence).
    split; [reflexivity|]. split.
    + apply list_eq. intros j. rewrite !list_lookup_fmap.
      destruct (decide (j = socket)) as [->|Hne].
      * rewrite list_lookup_insert_eq by (eapply lookup_lt_Some; eauto).
        rewrite Hs. reflexivity.
      * rewrite list_lookup_insert_ne by congruence. reflexivity.
    + intros s Hget.
      rewrite list_lookup_insert_eq in Hget by (eapply lookup_lt_Some; eauto).
      injection Hget as <-. discriminate.
  - split; [reflexivity|]. split; [reflexivity|]. intros s Hget. congruence.
Qed.

End Remount.

(** X11. When no unmount finds the socket of the component still
    connecting, the component never holds two channels: after any such
    sequence of mounts, unmounts and network events, starting without
    sockets, at most one socket is live. *)
Theorem one_live_socket_when_unmounted_after_open (WEBSOCKET_URL : string)
    (storage : gmap string string) (events : list Channel.lifecycle) :
  let start := ({| Channel.localStorage := storage; Channel.sockets := [] |},
                None) in
  Channel.unmounts_after_open WEBSOCKET_URL events start = true ->
  (Channel.live_sockets
     (Channel.lifecycle_run WEBSOCKET_URL events start).1 <= 1)%nat.
Proof.
  intros start Horder.
  assert (Hinv : Channel.holds_the_live_socket start)
    by (intros j s Hj; discriminate).
  pose proof (holds_run WEBSOCKET_URL events start Horder Hinv) as H.
  apply live_filter_unique. intros j1 j2 s1 s2 H1 H2 L1 L2.
  pose proof (H j1 s1 H1 L1) as E1. pose proof (H j2 s2 H2 L2) as E2.
  congruence.
Qed.

Lemma one_live_socket_when_unmounted_after_open_witness :
  (Channel.live_sockets
     (Channel.lifecycle_run "ws://localhost:8000/ws"
        [Channel.Mount; Channel.Net 0 Channel.established; Channel.Unmount;
         Channel.Mount; Channel.Net 1 Channel.established;
         Channel.Net 0 Channel.ended; Channel.Unmount;
         Channel.Mount]
        ({| Channel.localStorage := {["session_id" := "s1"]};
            Channel.sockets := [] |}, None)).1 <= 1)%nat.
Proof.
  apply (one_live_socket_when_unmounted_after_open "ws://localhost:8000/ws"
           {["session_id" := "s1"]}
           [Channel.Mount; Channel.Net 0 Channel.established; Channel.Unmount;
            Channel.Mount; Channel.Net 1 Channel.established;
         Channel.Net 0 Channel.ended; Channel.Unmount;
            Channel.Mount]).
  reflexivity.
Defined.

(** X12. The cleanup is idempotent and touches nothing but the state of
    its own socket: running it twice is running it once, the storage
    and the addresses of all sockets stay as they are, and afterwards
    its socket is not open. *)
Theorem cleanup_idempotent (socket : nat) (b : Channel.browser) :
  Channel.cleanup socket (Channel.cleanup socket b) = Channel.cleanup socket b /\
  Channel.localStorage (Channel.cleanup socket b) = Channel.localStorage b /\
  Channel.url <$> Channel.sockets (Channel.cleanup socket b)
  = Channel.url <$> Channel.sockets b /\
  forall s : Channel.WebSocket,
    Channel.sockets (Channel.cleanup socket b) !! socket = Some s ->
    Channel.readyState s <> Channel.OPEN.
Proof.
  destruct (cleanup_shape socket b) as (Hstore & Hurls & Hclosed).
  split; [|split; [exact Hstore|split; [exact Hurls|exact Hclosed]]].
  unfold Channel.cleanup at 1.
  destruct (Channel.sockets (Channel.cleanup socket b) !! socket) as [s|] eqn:Hs;
    [|reflexivity].
  specialize (Hclosed s eq_refl).
  destruct (Channel.readyState s); (reflexivity || congruence).
Qed.

Lemma cleanup_idempotent_witness :
  let b :=
    {| Channel.localStorage := ∅;
       Channel.sockets :=
         [{| Channel.url := "ws://localhost:8000/ws/audio/s1";
             Channel.readyState := Channel.OPEN |}] |} in
  exists s : Channel.WebSocket,
    Channel.sockets (Channel.cleanup 0 b) !! 0%nat = Some s /\
    Channel.readyState s <> Channel.OPEN.
Proof.
  intros b. eexists. split; [reflexivity|].
  apply (proj2 (proj2 (proj2 (cleanup_idempotent 0 b)))). reflexivity.
Defined.

(** ** Login.tsx: the answers to a login *)

Section LoginPage.
Import Channel.
Variable WEBSOCKET_URL : string.

(** Without a successful login nothing is stored and no socket exists. *)
Lemma no_success_step (e : page_event) (p : page) :
  no_success [e] = true ->
  isAuthenticated p = false /\ storage p = storage start_page ->
  isAuthenticated (page_step WEBSOCKET_URL e p) = false /\
  storage (page_step WEBSOCKET_URL e p) = storage start_page.
Proof.
  intros Hno [Hauth Hstore].
  destruct e as [|ok token session_id|socket ev]; cbn [page_step].
  - unfold handleSubmit. rewrite Hauth. cbn [orb].
    destruct (loading p); cbn; auto.
  - unfold handleLogin. destruct (loading p); cbn [negb]; [|auto].
    destruct ok; [discriminate|]. cbn. auto.
  - cbn. split; [exact Hauth|]. rewrite Hstore. unfold network.
    cbn [sockets storage start_page]. rewrite lookup_nil. reflexivity.
Qed.

End LoginPage.

(** X13. A successful answer to a login on a page that is not yet
    authenticated stores the token and the session id of that answer and
    opens the one socket of the page, addressed to that session id. *)
Theorem login_binds_channel_to_session (WEBSOCKET_URL : string)
    (events : list Channel.page_event) (token session_id : string) :
  Channel.isAuthenticated
    (Channel.page_run WEBSOCKET_URL events Channel.start_page) = false ->
  let p :=
    Channel.page_run WEBSOCKET_URL
      (events ++ [Channel.Submit; Channel.LoginResponse true token session_id])
      Channel.start_page in
  Channel.isAuthenticated p = true /\
  Channel.localStorage (Channel.storage p) !! "token" = Some token /\
  Channel.localStorage (Channel.storage p) !! "session_id" = Some session_id /\
  Channel.sockets (Channel.storage p)
  = [{| Channel.url := WEBSOCKET_URL +:+ "/audio/" +:+ session_id;
        Channel.readyState := Channel.CONNECTING |}] /\
  Channel.voice p = Some 0%nat.
Proof.
  intros Hauth p. subst p. unfold Channel.page_run in *. rewrite foldl_app.
  set (p := foldl _ Channel.start_page events) in *.
  pose proof (page_invariant_run WEBSOCKET_URL events) as Hinv.
  unfold Channel.page_run in Hinv. fold p in Hinv.
  unfold Channel.page_invariant in Hinv. rewrite Hauth in Hinv.
  destruct Hinv as [Hvoice Hsockets].
  cbn [foldl Channel.page_step].
  unfold Channel.handleSubmit. rewrite Hauth. cbn [orb].
  destruct (Channel.loading p) eqn:Hload.
  - unfold Channel.handleLogin. rewrite Hload, Hauth. cbn [negb].
    cbn. rewrite Hsockets. cbn.
    rewrite lookup_insert_ne by discriminate.
    rewrite !lookup_insert_eq. repeat split.
  - unfold Channel.handleLogin. cbn. rewrite Hsockets. cbn.
    rewrite lookup_insert_ne by discriminate.
    rewrite !lookup_insert_eq. repeat split.
Qed.

Lemma login_binds_channel_to_session_witness :
  let p :=
    Channel.page_run "ws://localhost:8000/ws"
      ([Channel.Submit; Channel.LoginResponse false "" ""]
       ++ [Channel.Submit; Channel.LoginResponse true "t1" "s1"])
      Channel.start_page in
  Channel.isAuthenticated p = true /\
  Channel.localStorage (Channel.storage p) !! "token" = Some "t1" /\
  Channel.localStorage (Channel.storage p) !! "session_id" = Some "s1" /\
  Channel.sockets (Channel.storage p)
  = [{| Channel.url := "ws://localhost:8000/ws" +:+ "/audio/" +:+ "s1";
        Channel.readyState := Channel.CONNECTING |}] /\
  Channel.voice p = Some 0%nat.
Proof.
  apply (login_binds_channel_to_session "ws://localhost:8000/ws"
           [Channel.Submit; Channel.LoginResponse false "" ""] "t1" "s1").
  reflexivity.
Defined.

(** X14. As long as no login is answered with success, the page stays
    unauthenticated, nothing is written to the storage and no socket is
    opened, whatever is submitted and whatever the network reports. *)
Theorem failed_logins_leave_no_trace (WEBSOCKET_URL : string)
    (events : list Channel.page_event) :
  Channel.no_success events = true ->
  let p := Channel.page_run WEBSOCKET_URL events Channel.start_page in
  Channel.isAuthenticated p = false /\
  Channel.localStorage (Channel.storage p) = ∅ /\
  Channel.sockets (Channel.storage p) = [] /\
  Channel.voice p = None.
Proof.
  intros Hno p.
  assert (H : Channel.isAuthenticated p = false /\
              Channel.storage p = Channel.storage Channel.start_page).
  { subst p. revert Hno.
    induction events as [|e events IH] using rev_ind; intros Hno.
    - split; reflexivity.
    - unfold Channel.no_success in Hno. rewrite forallb_app in Hno.
      apply andb_prop in Hno as [Hno He].
      unfold Channel.page_run. rewrite foldl_app. cbn [foldl].
      apply no_success_step; [exact He|]. apply IH. exact Hno. }
  destruct H as [Hauth Hstore].
  pose proof (page_invariant_run WEBSOCKET_URL events) as Hinv.
  unfold Channel.page_invariant in Hinv. fold p in Hinv. rewrite Hauth in Hinv.
  destruct Hinv as [Hvoice _].
  rewrite Hstore. split; [exact Hauth|]. split; [reflexivity|].
  split; [reflexivity|exact Hvoice].
Qed.

Lemma failed_logins_leave_no_trace_witness :
  let p :=
    Channel.page_run "ws://localhost:8000/ws"
      [Channel.Submit; Channel.LoginResponse false "t" "s";
       Channel.Network 0 Channel.established; Channel.Submit]
      Channel.start_page in
  Channel.isAuthenticated p = false /\
  Channel.localStorage (Channel.storage p) = ∅ /\
  Channel.sockets (Channel.storage p) = [] /\
  Channel.voice p = None.
Proof.
  apply (failed_logins_leave_no_trace "ws://localhost:8000/ws"
           [Channel.Submit; Channel.LoginResponse false "t" "s";
            Channel.Network 0 Channel.established; Channel.Submit]).
  reflexivity.
Defined.

(** ** CarShowroom.tsx: the car of a message *)

Section Cars.
Import JS Showroom.
Variable API_URL : string.

Lemma prefix_append (p s : string) : String.prefix p (p +:+ s) = true.
Proof.
  induction p as [|c p IH]; [destruct s; reflexivity|].
  change (String.prefix (String c p) (String c (p +:+ s)) = true).
  cbn [String.prefix]. destruct (ascii_dec c c); [exact IH|congruence].
Qed.

Lemma prefix_append_l (p a s : string) :
  String.prefix p a = true -> String.prefix p (a +:+ s) = true.
Proof.
  revert a. induction p as [|c p IH]; intros a H.
  - destruct (a +:+ s); reflexivity.
  - destruct a as [|d a]; [discriminate|].
    change (String.prefix (String c p) (String d (a +:+ s)) = true).
    cbn [String.prefix] in *.
    destruct (ascii_dec c d); [|discriminate]. apply IH, H.
Qed.

Lemma append_assoc (a b c : string) : (a +:+ b) +:+ c = a +:+ b +:+ c.
Proof.
  induction a as [|x a IH]; [reflexivity|].
  change (String x ((a +:+ b) +:+ c) = String x (a +:+ b +:+ c)).
  rewrite IH. reflexivity.
Qed.

(** The address of an image is empty, absolute, rooted, or among the
    static files. *)
Lemma image_url_shape (imageUrl : string) :
  let url := image_url API_URL imageUrl in
  url = "" \/ String.prefix "http" url = true \/
  String.prefix "/" url = true \/
  String.prefix (API_URL +:+ "/static/") url = true.
Proof.
  unfold image_url.
  destruct (String.eqb_spec imageUrl "") as [->|_]; [left; reflexivity|].
  destruct (String.prefix "http" imageUrl) eqn:Hh; [right; left; exact Hh|].
  destruct (String.prefix "/" imageUrl) eqn:Hs; [right; right; left; exact Hs|].
  right. right. right. cbv zeta. rewrite <- append_assoc. apply prefix_append.
Qed.

Lemma or_else_truthy (p : property) (fallback : json) :
  truthy (Value fallback) = true -> truthy (Value (or_else p fallback)) = true.
Proof.
  intros Hf. unfold or_else. destruct p as [v| |]; try exact Hf.
  destruct (truthy (Value v)) eqn:Hv; [exact Hv|exact Hf].
Qed.

(** The image the effect works with, for an image that is a text or
    counts as false. *)
Lemma or_else_image (p : property) :
  text_or_false p = true ->
  exists imageUrl : string, or_else p (JString "") = JString imageUrl.
Proof.
  unfold text_or_false, or_else. destruct p as [v| |]; eauto.
  destruct v; intros H; try (apply negb_true_iff in H; rewrite H); eauto.
  destruct (truthy _); eauto.
Qed.

Lemma parse_object_not_empty (message : string) (value : json) :
  JSON_parse message = Some value -> String.eqb message "" = false.
Proof.
  intros H. destruct message; [discriminate|reflexivity].
Qed.

(** The effect on a message that parses to an object of type
    [show_image]. *)
Lemma useEffect_show_image (message : string) (members : list (string * json))
    (st : state) :
  JSON_parse message = Some (JObject members) ->
  get_member "type" members = Some (JString "show_image") ->
  useEffect API_URL message st
  = match or_else (get_property "image" (JObject members)) (JString "") with
    | JString imageUrl =>
        setCar
          (car_object
             [("id", JNumber "0");
              ("image", JString (image_url API_URL imageUrl));
              ("colorName",
               or_else (get_property "text" (JObject members)) (JString "Car"));
              ("colorOptions",
               or_else (get_property "colorOptions" (JObject members))
                 (JArray []));
              ("price", JNumber "0")])
          st
    | _ => failed "TypeError" st
    end.
Proof.
  intros Hparse Htype. unfold useEffect.
  rewrite (parse_object_not_empty _ _ Hparse), Hparse.
  cbn [get_type]. rewrite Htype. reflexivity.
Qed.

End Cars.

(** X15. A [show_image] message whose image is a text, is missing or
    counts as false always yields a car: id and price 0, a color name
    and color options that count as true (the defaults being Car and
    the empty list), and an image address that is empty, starts with
    http or with a slash, or lies under [API_URL/static/]. *)
Theorem show_image_builds_car (API_URL message : string)
    (members : list (string * JS.json)) (st : Showroom.state) :
  JS.JSON_parse message = Some (JS.JObject members) ->
  JS.get_member "type" members = Some (JS.JString "show_image") ->
  Showroom.text_or_false (Showroom.get_property "image" (JS.JObject members))
  = true ->
  exists (url : string) (colorName colorOptions : JS.json),
    Showroom.useEffect API_URL message st
    = Showroom.setCar
        (Showroom.car_object
           [("id", JS.JNumber "0"); ("image", JS.JString url);
            ("colorName", colorName); ("colorOptions", colorOptions);
            ("price", JS.JNumber "0")]) st /\
    (url = "" \/ String.prefix "http" url = true \/
     String.prefix "/" url = true \/
     String.prefix (API_URL +:+ "/static/") url = true) /\
    Showroom.truthy (JS.Value colorName) = true /\
    Showroom.truthy (JS.Value colorOptions) = true.
Proof.
  intros Hparse Htype Himage.
  rewrite (useEffect_show_image API_URL message members st Hparse Htype).
  destruct (or_else_image _ Himage) as [imageUrl ->].
  eexists _, _, _. split; [reflexivity|].
  split; [apply image_url_shape|].
  split; apply or_else_truthy; reflexivity.
Qed.

Lemma show_image_builds_car_witness :
  let message :=
    AudioStream.object_text
      [("type", "show_image"); ("image", "audi/car_views/q6.jpg")] in
  exists (url : string) (colorName colorOptions : JS.json),
    Showroom.useEffect "http://localhost:8000" message
      (Showroom.showroom Showroom.start)
    = Showroom.setCar
        (Showroom.car_object
           [("id", JS.JNumber "0"); ("image", JS.JString url);
            ("colorName", colorName); ("colorOptions", colorOptions);
            ("price", JS.JNumber "0")]) (Showroom.showroom Showroom.start) /\
    (url = "" \/ String.prefix "http" url = true \/
     String.prefix "/" url = true \/
     String.prefix ("http://localhost:8000" +:+ "/static/") url = true) /\
    Showroom.truthy (JS.Value colorName) = true /\
    Showroom.truthy (JS.Value colorOptions) = true.
Proof.
  apply (show_image_builds_car "http://localhost:8000"
           (AudioStream.object_text
              [("type", "show_image"); ("image", "audi/car_views/q6.jpg")])
           [("type", JS.JString "show_image");
            ("image", JS.JString "audi/car_views/q6.jpg")]
           (Showroom.showroom Showroom.start)).
  - vm_compute. reflexivity.
  - reflexivity.
  - reflexivity.
Defined.

(** X16. The address of an image is stable: when [API_URL] is empty or
    itself starts with http or with a slash, an address the component
    has produced is left as it is when it is given again. *)
Theorem image_url_idempotent (API_URL imageUrl : string) :
  API_URL = "" \/ String.prefix "http" API_URL = true \/
  String.prefix "/" API_URL = true ->
  Showroom.image_url API_URL (Showroom.image_url API_URL imageUrl)
  = Showroom.image_url API_URL imageUrl.
Proof.
  intros Hapi.
  assert (Hfixed : forall u : string,
            u = "" \/ String.prefix "http" u = true \/
            String.prefix "/" u = true ->
            Showroom.image_url API_URL u = u).
  { intros u Hu. unfold Showroom.image_url.
    destruct (String.eqb_spec u "") as [->|Hne]; [reflexivity|].
    destruct Hu as [Hu|[Hu|Hu]]; [congruence|rewrite Hu; reflexivity|].
    rewrite Hu. destruct (String.prefix "http" u); reflexivity. }
  apply Hfixed. unfold Showroom.image_url.
  destruct (String.eqb_spec imageUrl "") as [->|_]; [left; reflexivity|].
  destruct (String.prefix "http" imageUrl) eqn:Hh; [right; left; exact Hh|].
  destruct (String.prefix "/" imageUrl) eqn:Hs; [right; right; exact Hs|].
  destruct Hapi as [->|[Hp|Hp]].
  - right. right. reflexivity.
  - right. left. apply prefix_append_l, Hp.
  - right. right. apply prefix_append_l, Hp.
Qed.

Lemma image_url_idempotent_witness :
  Showroom.image_url "http://localhost:8000"
    (Showroom.image_url "http://localhost:8000" "audi/q6.jpg")
  = Showroom.image_url "http://localhost:8000" "audi/q6.jpg".
Proof.
  apply (image_url_idempotent "http://localhost:8000" "audi/q6.jpg").
  right. left. reflexivity.
Defined.

(** X17. For a message that is not empty the effect of CarShowroom does
    exactly one of two things: it sets the car and prints nothing, or it
    keeps the car and prints one error; a message that is not JSON, is
    [null] or is a number, a string or a boolean is of the second kind.
    The empty message does nothing. *)
Theorem useEffect_sets_car_or_reports (API_URL message : string)
    (st : Showroom.state) :
  let st' := Showroom.useEffect API_URL message st in
  (message = "" -> st' = st) /\
  (message <> "" ->
   (exists carData : Showroom.car_data,
      Showroom.car st' = Some carData /\
      Showroom.console st' = Showroom.console st) \/
   (exists error : string,
      Showroom.car st' = Showroom.car st /\
      Showroom.console st'
      = Showroom.console st
        ++ [JS.console_error "Failed to parse receivedMessage" [error]])) /\
  (match JS.JSON_parse message with
   | Some (JS.JObject _) | Some (JS.JArray _) => True
   | _ => message <> "" -> Showroom.car st' = Showroom.car st
   end).
Proof.
  intros st'. subst st'. unfold Showroom.useEffect.
  destruct (String.eqb_spec message "") as [->|Hne].
  - split; [reflexivity|]. split; [congruence|]. vm_compute. congruence.
  - split; [congruence|].
    destruct (JS.JSON_parse message) as [parsedData|].
    + destruct parsedData as [|b|lexeme|s|items|members]; cbn [JS.get_type].
      * split; [intros _; right; eexists; split; reflexivity|reflexivity].
      * cbv zeta. cbn [JS.strict_eq].
        split; [intros _; right; eexists; split; reflexivity|reflexivity].
      * cbv zeta. cbn [JS.strict_eq].
        split; [intros _; right; eexists; split; reflexivity|reflexivity].
      * cbv zeta. cbn [JS.strict_eq].
        split; [intros _; right; eexists; split; reflexivity|reflexivity].
      * cbv zeta. cbn [JS.strict_eq].
        split; [intros _; left; eexists; split; reflexivity|exact I].
      * split; [intros _|exact I].
        destruct (JS.get_member "type" members) as [v|]; cbv zeta.
        -- destruct (JS.strict_eq (JS.Value v) "show_image").
           ++ destruct (Showroom.or_else _ (JS.JString ""));
                (left; eexists; split; reflexivity)
                || (right; eexists; split; reflexivity).
           ++ left; eexists; split; reflexivity.
        -- cbn [JS.strict_eq]. left; eexists; split; reflexivity.
    + split; [intros _; right; eexists; split; reflexivity|reflexivity].
Qed.

Lemma useEffect_sets_car_or_reports_witness :
  let st' :=
    Showroom.useEffect "http://localhost:8000" "start"
      (Showroom.showroom Showroom.start) in
  (exists carData : Showroom.car_data,
     Showroom.car st' = Some carData /\
     Showroom.console st' = Showroom.console (Showroom.showroom Showroom.start))
  \/
  (exists error : string,
     Showroom.car st' = Showroom.car (Showroom.showroom Showroom.start) /\
     Showroom.console st'
     = Showroom.console (Showroom.showroom Showroom.start)
       ++ [JS.console_error "Failed to parse receivedMessage" [error]]).
Proof.
  apply (proj1 (proj2 (useEffect_sets_car_or_reports "http://localhost:8000"
                         "start" (Showroom.showroom Showroom.start)))).
  discriminate.
Defined.

(** ** VoiceInteraction.tsx and CarShowroom.tsx: what the store feeds *)

Section Store.
Import JS Voice.
Variable API_URL : string.
Variable localStorage : gmap string string.

Lemma show_image_texts_parse (events : list event) (data : string) :
  In data (show_image_texts events) ->
  exists members : list (string * json),
    JSON_parse data = Some (JObject members) /\
    get_member "type" members = Some (JString "show_image").
Proof.
  unfold show_image_texts. rewrite in_flat_map. intros (e & _ & Hin).
  destruct e as [| |[bytes|text] currentTime| | | |]; try contradiction.
  destruct (JSON_parse text) as [jsonObj|] eqn:Hparse; [|contradiction].
  destruct (strict_eq (get_type jsonObj) "show_image") eqn:Htype;
    [|contradiction].
  destruct Hin as [<-|[]].
  destruct jsonObj as [| | | | |members]; try discriminate.
  exists members. split; [exact Hparse|].
  cbn [get_type] in Htype.
  destruct (get_member "type" members) as [v|]; [|discriminate].
  destruct v; try discriminate. cbn [strict_eq] in Htype.
  apply String.eqb_eq in Htype. subst. reflexivity.
Qed.

(** The received message is empty or the text of an object of type
    [show_image]. *)
Lemma receivedMessage_parse (events : list event) :
  let message :=
    receivedMessage (run API_URL localStorage events (mount initial)) in
  message = "" \/
  exists members : list (string * json),
    JSON_parse message = Some (JObject members) /\
    get_member "type" members = Some (JString "show_image").
Proof.
  cbv zeta. rewrite run_receivedMessage.
  destruct (last (show_image_texts events)) as [data|] eqn:Hlast;
    [|left; reflexivity].
  right. apply (show_image_texts_parse events).
  apply last_Some in Hlast as [l ->]. apply in_or_app. right. left.
  reflexivity.
Qed.

End Store.

(** X18. Whatever frames, keys, uploads and socket events the voice
    component has seen, CarShowroom reads from the store either the
    empty message or the text of an object of type [show_image]; so its
    effect never takes the branch for a message in car format: it does
    nothing, reports a TypeError, or sets a car of the five members id,
    image, colorName, colorOptions and price. *)
Theorem store_feeds_only_show_image (API_URL : string)
    (localStorage : gmap string string) (events : list Voice.event)
    (st : Showroom.state) :
  let message :=
    Voice.receivedMessage
      (Voice.run API_URL localStorage events (Voice.mount Voice.initial)) in
  (message = "" \/
   exists members : list (string * JS.json),
     JS.JSON_parse message = Some (JS.JObject members) /\
     JS.get_member "type" members = Some (JS.JString "show_image")) /\
  (Showroom.useEffect API_URL message st = st \/
   Showroom.useEffect API_URL message st = Showroom.failed "TypeError" st \/
   exists (url : string) (colorName colorOptions : JS.json),
     Showroom.useEffect API_URL message st
     = Showroom.setCar
         (Showroom.car_object
            [("id", JS.JNumber "0"); ("image", JS.JString url);
             ("colorName", colorName); ("colorOptions", colorOptions);
             ("price", JS.JNumber "0")]) st).
Proof.
  intros message.
  pose proof (receivedMessage_parse API_URL localStorage events) as H.
  fold message in H. split; [exact H|].
  destruct H as [->|(members & Hparse & Htype)]; [left; reflexivity|].
  right. rewrite (useEffect_show_image API_URL message members st Hparse Htype).
  destruct (Showroom.or_else _ (JS.JString ""));
    try (left; reflexivity).
  right. eexists _, _, _. reflexivity.
Qed.

(** ** AIShowroom.tsx and BouncingDots.tsx: the sidebar and the dots *)

Section Sidebar.
Import JS Showroom.
Variable API_URL : string.

(** The car the effect leaves depends on the state only through the car
    it finds. *)
Lemma useEffect_car (message : string) (st1 st2 : state) :
  car st1 = car st2 ->
  car (useEffect API_URL message st1) = car (useEffect API_URL message st2).
Proof.
  intros Hcar. unfold useEffect.
  destruct (String.eqb message ""); [exact Hcar|].
  destruct (JSON_parse message) as [parsedData|]; [|exact Hcar].
  destruct (get_type parsedData) as [v| |]; cbv zeta; try exact Hcar.
  - destruct (strict_eq (Value v) "show_image").
    + destruct (or_else _ (JString "")); (exact Hcar || reflexivity).
    + destruct parsedData; (exact Hcar || reflexivity).
  - cbn [strict_eq]. destruct parsedData; (exact Hcar || reflexivity).
Qed.

Lemma sidebar_invariant_step (e : event) (p : page) :
  page_invariant p -> page_invariant (step API_URL e p).
Proof.
  unfold page_invariant. intros (Hvis & Htimer & Hshown & Hhidden).
  assert (Hnot : showSidebar p = false -> contentVisible p = false).
  { intros Hs. destruct (contentVisible p); [|reflexivity].
    specialize (Hvis eq_refl). congruence. }
  destruct e as [message| |]; cbn [step].
  - unfold receive.
    destruct (String.eqb message (receivedMessage p));
      [split; [exact Hvis|split; [exact Htimer|split; [exact Hshown|exact Hhidden]]]|].
    destruct (showSidebar p) eqn:Hs.
    + cbn [contentVisible showSidebar timer showroom].
      split; [reflexivity|]. split; [intros Ht; split; [reflexivity|];
                                     apply Htimer, Ht|].
      split; [intros _; apply Hshown; reflexivity|discriminate].
    + destruct (String.eqb message "").
      * cbn [contentVisible showSidebar timer showroom].
        split; [exact Hvis|]. split; [exact Htimer|].
        split; [discriminate|exact (fun _ => Hhidden eq_refl)].
      * cbn [open_sidebar contentVisible showSidebar timer showroom].
        rewrite (Hnot eq_refl).
        split; [discriminate|]. split; [intros _; split; reflexivity|].
        split; [intros _; left; reflexivity|discriminate].
  - unfold toggle. destruct (showSidebar p) eqn:Hs.
    + cbn [close_sidebar contentVisible showSidebar timer showroom car].
      split; [discriminate|]. split; [discriminate|].
      split; [discriminate|reflexivity].
    + cbn [open_sidebar contentVisible showSidebar timer showroom].
      rewrite (Hnot eq_refl).
      split; [discriminate|]. split; [intros _; split; reflexivity|].
      split; [intros _; left; reflexivity|discriminate].
  - unfold timeout. destruct (Bool.bool_dec (timer p) true) as [Ht|Ht];
      [rewrite Ht|apply not_true_is_false in Ht; rewrite Ht; split; [exact Hvis|split; [exact Htimer|split; [exact Hshown|exact Hhidden]]]].
    destruct (Htimer Ht) as [Hs _].
    cbn [contentVisible showSidebar timer showroom].
    split; [intros _; exact Hs|]. split; [discriminate|].
    split; [intros _; right; reflexivity|].
    intros Hf. congruence.
Qed.

Lemma sidebar_invariant_run (events : list event) :
  page_invariant (run API_URL events start).
Proof.
  induction events as [|e events IH] using rev_ind.
  - unfold page_invariant. cbn.
    split; [discriminate|]. split; [discriminate|].
    split; [discriminate|reflexivity].
  - unfold run. rewrite foldl_app. apply sidebar_invariant_step, IH.
Qed.

End Sidebar.

(** X19. After any messages, clicks on the button and timer ticks, the
    content of the sidebar is visible only while the sidebar is shown;
    the fade-in timer is pending only while the sidebar is shown and the
    content not yet visible; a shown sidebar has its content visible or
    the timer pending; and a hidden sidebar holds no car. *)
Theorem sidebar_content_follows_sidebar (API_URL : string)
    (events : list Showroom.event) :
  let p := Showroom.run API_URL events Showroom.start in
  (Showroom.contentVisible p = true -> Showroom.showSidebar p = true) /\
  (Showroom.timer p = true ->
   Showroom.showSidebar p = true /\ Showroom.contentVisible p = false) /\
  (Showroom.showSidebar p = true ->
   Showroom.timer p = true \/ Showroom.contentVisible p = true) /\
  (Showroom.showSidebar p = false ->
   Showroom.car (Showroom.showroom p) = None).
Proof.
  apply (sidebar_invariant_run API_URL events).
Qed.

Lemma sidebar_content_follows_sidebar_witness :
  let p :=
    Showroom.run "http://localhost:8000"
      [Showroom.Received
         (AudioStream.object_text [("type", "show_image"); ("image", "a.jpg")]);
       Showroom.Timeout; Showroom.Toggle]
      Showroom.start in
  Showroom.showSidebar p = false /\
  Showroom.car (Showroom.showroom p) = None.
Proof.
  intros p. split; [reflexivity|].
  apply (proj2 (proj2 (proj2
    (sidebar_content_follows_sidebar "http://localhost:8000"
       [Showroom.Received
          (AudioStream.object_text
             [("type", "show_image"); ("image", "a.jpg")]);
        Showroom.Timeout; Showroom.Toggle])))).
  reflexivity.
Defined.

(** X20. A message that is not empty and differs from the one in the
    store always leaves the sidebar shown and the store holding it, and
    the car is then what the effect of CarShowroom makes of that message
    and of the car shown before; the same message once more changes
    nothing. *)
Theorem new_message_shows_sidebar (API_URL : string)
    (events : list Showroom.event) (message : string) :
  let p := Showroom.run API_URL events Showroom.start in
  message <> "" ->
  message <> Showroom.receivedMessage p ->
  let p' := Showroom.step API_URL (Showroom.Received message) p in
  Showroom.showSidebar p' = true /\
  Showroom.receivedMessage p' = message /\
  Showroom.car (Showroom.showroom p')
  = Showroom.car (Showroom.useEffect API_URL message (Showroom.showroom p)) /\
  Showroom.step API_URL (Showroom.Received message) p' = p'.
Proof.
  intros p Hne Hnew p'.
  pose proof (sidebar_invariant_run API_URL events) as (_ & _ & _ & Hhidden).
  fold p in Hhidden.
  assert (Hsame : Showroom.receivedMessage p' = message ->
                  Showroom.step API_URL (Showroom.Received message) p' = p').
  { intros Hm. cbn [Showroom.step]. unfold Showroom.receive.
    rewrite Hm, String.eqb_refl. reflexivity. }
  subst p'. cbn [Showroom.step] in *. unfold Showroom.receive in *.
  destruct (String.eqb_spec message (Showroom.receivedMessage p));
    [congruence|].
  destruct (String.eqb_spec message ""); [congruence|].
  destruct (Showroom.showSidebar p) eqn:Hs.
  - cbn in *. repeat split; auto.
  - cbn in *. split; [reflexivity|]. split; [reflexivity|].
    split; [|auto].
    apply useEffect_car. cbn. symmetry. apply Hhidden. reflexivity.
Qed.

Lemma new_message_shows_sidebar_witness :
  let message :=
    AudioStream.object_text [("type", "show_image"); ("image", "a.jpg")] in
  let p :=
    Showroom.run "http://localhost:8000" [Showroom.Toggle; Showroom.Toggle]
      Showroom.start in
  let p' := Showroom.step "http://localhost:8000" (Showroom.Received message) p in
  Showroom.showSidebar p' = true /\
  Showroom.receivedMessage p' = message /\
  Showroom.car (Showroom.showroom p')
  = Showroom.car
      (Showroom.useEffect "http://localhost:8000" message
         (Showroom.showroom p)) /\
  Showroom.step "http://localhost:8000" (Showroom.Received message) p' = p'.
Proof.
  apply (new_message_shows_sidebar "http://localhost:8000"
           [Showroom.Toggle; Showroom.Toggle]
           (AudioStream.object_text
              [("type", "show_image"); ("image", "a.jpg")]));
    discriminate.
Defined.

Section Bouncing.
Import Dots.



End Bouncing.


